(** * Terminal Racer (main.cpp): a shallow embedding and its properties

    The program is a single translation unit that keeps its game state in
    global variables.  The embedding below keeps the names of the source
    and threads the globals explicitly:

    - [State] holds the globals a run mutates ([obstacles], [playerX],
      [score], [gameOver]) together with the hidden state of the C library's
      pseudo random generator, represented by the number of [rand()] calls
      made so far;
    - [Config] holds the globals a run only reads ([moveLeftKey],
      [moveRightKey], [difficultyLevel]);
    - [Store] holds [highestScore] and the file [highscore.txt];
    - [Tty] is the POSIX terminal device [getInputSequence] reads from.

    C++ [int] and [long long] values are modelled by [Z].  Signed overflow
    is undefined behaviour in C++, so the model describes the program on the
    executions where no counter leaves its type; the rows of the obstacles
    are shown to stay within [1, 21] on every run ([rows_fit_int]). *)

From Stdlib Require Import ZArith List String Ascii Bool Sorted Lia.
Import ListNotations.
Open Scope Z_scope.

(* ================================================================= *)
(** ** Configuration constants *)

Definition TRACK_WIDTH : Z := 20.
Definition SCREEN_HEIGHT : Z := 20.
Definition START_PLAYER_X : Z := TRACK_WIDTH ÷ 2 + 1.

Definition PLAYER_CHAR : ascii := "@"%char.
Definition OBSTACLE_CHAR : ascii := "#"%char.
Definition ROAD_CHAR : ascii := " "%char.
Definition BORDER_CHAR : ascii := "|"%char.

(** Limits of [long long]. *)
Definition LLONG_MAX : Z := 9223372036854775807.
Definition LLONG_MIN : Z := - 9223372036854775808.

(* ================================================================= *)
(** ** Global game state *)

(** [struct Car { int x; int y; }] *)
Record Car : Type := mkCar { x : Z; y : Z }.

Record State : Type := mkState {
  obstacles : list Car;   (* std::vector<Car>, front = oldest *)
  playerX   : Z;
  score     : Z;
  gameOver  : bool;
  randCalls : nat         (* number of rand() calls made since srand() *)
}.

Record Config : Type := mkConfig {
  moveLeftKey     : string;
  moveRightKey    : string;
  difficultyLevel : Z
}.

Definition set_obstacles (v : list Car) (s : State) : State :=
  mkState v (playerX s) (score s) (gameOver s) (randCalls s).
Definition set_playerX (v : Z) (s : State) : State :=
  mkState (obstacles s) v (score s) (gameOver s) (randCalls s).
Definition set_score (v : Z) (s : State) : State :=
  mkState (obstacles s) (playerX s) v (gameOver s) (randCalls s).
Definition set_gameOver (v : bool) (s : State) : State :=
  mkState (obstacles s) (playerX s) (score s) v (randCalls s).
Definition set_randCalls (v : nat) (s : State) : State :=
  mkState (obstacles s) (playerX s) (score s) (gameOver s) v.

(** The assignments at the head of [gameLoop]: a fresh session.  The
    generator is not reseeded between sessions. *)
Definition freshSession (calls : nat) : State :=
  mkState [] START_PLAYER_X 0 false calls.

(** The key bindings the globals are initialised with. *)
Definition defaultConfig : Config := mkConfig "a" "d" 1.

(* ================================================================= *)
(** ** Game logic *)

Definition empty (v : list Car) : bool :=
  match v with [] => true | _ :: _ => false end.

(** [v.back()]; the source only calls it on a non-empty vector. *)
Definition back (v : list Car) : Car := last v (mkCar 0 0).

(** [obs.y++] *)
Definition bump (obs : Car) : Car := mkCar (x obs) (y obs + 1).

(** [rand() % 10 < 3] and [(rand() % TRACK_WIDTH) + 2] as functions of the
    value [rand()] returns; [%] truncates towards zero. *)
Definition spawnDraw (r : Z) : bool := Z.rem r 10 <? 3.
Definition spawnColumn (r : Z) : Z := Z.rem r TRACK_WIDTH + 2.

(** First half of [updateObstacles]:
    [for (auto &obs : obstacles) obs.y++;] followed by the removal of the
    front obstacle once it has left the screen, which scores 10 points. *)
Definition advance (s : State) : State :=
  let moved := map bump (obstacles s) in
  match moved with
  | front :: rest =>
      if y front >? SCREEN_HEIGHT
      then set_score (score s + 10) (set_obstacles rest s)
      else set_obstacles moved s
  | [] => set_obstacles moved s
  end.

Section GameLogic.

(** [rand n] is the value the [n]-th call of [rand()] returns (counting
    from 0) after the [srand] of [main]. *)
Variable rand : nat -> Z.

(** The value of [shouldSpawn].  [rand()] is the left operand of the first
    [&&], so it is called whatever the field looks like. *)
Definition shouldSpawn (s : State) : bool :=
  (spawnDraw (rand (randCalls s)) && empty (obstacles s))
  || (negb (empty (obstacles s)) && (y (back (obstacles s)) >? 2)).

(** Second half of [updateObstacles]: the spawn decision, and the
    [push_back] of the new obstacle with a second call of [rand()]. *)
Definition maybeSpawn (s : State) : State :=
  if shouldSpawn s then
    let newX := spawnColumn (rand (S (randCalls s))) in
    set_randCalls (S (S (randCalls s)))
      (set_obstacles (obstacles s ++ [mkCar newX 1]) s)
  else set_randCalls (S (randCalls s)) s.

Definition updateObstacles (s : State) : State := maybeSpawn (advance s).

End GameLogic.

(** The [for] loop of [checkCollision], with its [break]: the result is
    the value of [gameOver] when the loop is left. *)
Fixpoint checkCollision_loop (obs : list Car) (px : Z) (over : bool) : bool :=
  match obs with
  | [] => over
  | o :: rest =>
      if (y o =? SCREEN_HEIGHT) && (x o =? px) then true
      else checkCollision_loop rest px over
  end.

Definition checkCollision (s : State) : State :=
  set_gameOver (checkCollision_loop (obstacles s) (playerX s) (gameOver s)) s.

(** The input dispatch at the head of each iteration of [gameLoop]. *)
Definition quitKey (input : string) : bool :=
  (input =? "q")%string || (input =? "Q")%string
  || (input =? String (ascii_of_nat 3) EmptyString)%string.

Definition handleInput (cfg : Config) (input : string) (s : State) : State :=
  if (input =? "")%string then s
  else if (input =? moveLeftKey cfg)%string then
    (if playerX s >? 2 then set_playerX (playerX s - 1) s else s)
  else if (input =? moveRightKey cfg)%string then
    (if playerX s <? TRACK_WIDTH + 1 then set_playerX (playerX s + 1) s else s)
  else if quitKey input then set_gameOver true s
  else s.

(* ================================================================= *)
(** ** Text formatting: [operator<<] on integers, [keyToDisplay] *)

Definition ESC : ascii := ascii_of_nat 27.
Definition str1 (c : ascii) : string := String c EmptyString.

(** The digit characters of [std::hex << std::uppercase]; the first ten are
    the decimal digits. *)
Definition digitChar (d : Z) : ascii :=
  if d <? 10 then ascii_of_nat (48 + Z.to_nat d)
  else ascii_of_nat (55 + Z.to_nat d).

(** Digits of a non-negative [n] in [base], most significant first, put in
    front of [acc].  [fuel] bounds the number of digits. *)
Fixpoint digitsOf (base : Z) (fuel : nat) (n : Z) (acc : string) : string :=
  match fuel with
  | O => acc
  | S f =>
      let acc' := String (digitChar (n mod base)) acc in
      if n / base =? 0 then acc' else digitsOf base f (n / base) acc'
  end.

(** A number below [2 ^ k] has at most [k] digits in any base from 2 on. *)
Definition digitFuel (n : Z) : nat := S (Z.to_nat (Z.log2 n)).

(** [os << n] for a signed integer with the default flags (decimal, no
    [showpos], classic locale). *)
Definition showDec (n : Z) : string :=
  if n <? 0 then String "-"%char (digitsOf 10 (digitFuel (- n)) (- n) "")
  else digitsOf 10 (digitFuel n) n "".

(** [os << std::hex << std::uppercase << n] for a non-negative [int]. *)
Definition showHex (n : Z) : string := digitsOf 16 (digitFuel n) n "".

(** [isprint] in the "C" locale. *)
Definition isprint (c : ascii) : bool :=
  let n := Z.of_nat (nat_of_ascii c) in (32 <=? n) && (n <=? 126).

Definition arrow (letter : ascii) : string :=
  String ESC (String "["%char (str1 letter)).

Fixpoint hexDump (k : string) : string :=
  match k with
  | EmptyString => ""
  | String ch rest =>
      ("0x" ++ showHex (Z.of_nat (nat_of_ascii ch)) ++ " " ++ hexDump rest)%string
  end.

Definition keyToDisplay (k : string) : string :=
  if (k =? "")%string then "NONE"
  else if (k =? arrow "A")%string then "UP_ARROW"
  else if (k =? arrow "B")%string then "DOWN_ARROW"
  else if (k =? arrow "C")%string then "RIGHT_ARROW"
  else if (k =? arrow "D")%string then "LEFT_ARROW"
  else if (k =? str1 (ascii_of_nat 10))%string
          || (k =? str1 (ascii_of_nat 13))%string then "ENTER"
  else if (k =? " ")%string then "SPACE"
  else if (k =? str1 (ascii_of_nat 9))%string then "TAB"
  else
    match k with
    | String c EmptyString =>
        if isprint c then str1 c else ("SEQ(" ++ hexDump k ++ ")")%string
    | _ => ("SEQ(" ++ hexDump k ++ ")")%string
    end.

(* ================================================================= *)
(** ** Rendering *)

(** [gotoxy] on the POSIX branch. *)
Definition gotoxy (row col : Z) : string :=
  (String ESC "[" ++ showDec row ++ ";" ++ showDec col ++ "H")%string.

Definition CLEAR_SCREEN : string :=
  (String ESC "[2J" ++ String ESC "[1;1H")%string.
Definition hideCursor : string := String ESC "[?25l".

(** The integers [lo, lo+1, ..., lo+n-1] a counting [for] loop visits. *)
Definition range (lo : Z) (n : nat) : list Z :=
  map (fun i => lo + Z.of_nat i) (seq 0 n).

Definition cell (s : State) (row col : Z) : ascii :=
  if (col =? 1) || (col =? TRACK_WIDTH + 2) then BORDER_CHAR
  else if (row =? SCREEN_HEIGHT) && (col =? playerX s) then PLAYER_CHAR
  else if existsb (fun obs => (y obs =? row) && (x obs =? col)) (obstacles s)
       then OBSTACLE_CHAR
       else ROAD_CHAR.

Definition drawRow (s : State) (row : Z) : string :=
  (string_of_list_ascii
     (map (cell s row) (range 1 (Z.to_nat (TRACK_WIDTH + 2))))
   ++ str1 (ascii_of_nat 10))%string.

(** Everything one call of [draw] writes to [std::cout]. *)
Definition draw (cfg : Config) (s : State) : string :=
  (gotoxy 1 1
   ++ String.concat "" (map (drawRow s) (range 1 (Z.to_nat SCREEN_HEIGHT)))
   ++ gotoxy (SCREEN_HEIGHT + 1) 1
   ++ "Score: " ++ showDec (score s)
   ++ " | Level: " ++ showDec (difficultyLevel cfg)
   ++ " | Controls: Left=" ++ keyToDisplay (moveLeftKey cfg)
   ++ " Right=" ++ keyToDisplay (moveRightKey cfg) ++ "    ")%string.

(* ================================================================= *)
(** ** The game loop *)

(** What the environment hands to one iteration of the [while] loop: the
    sequence [getInputSequence()] returns (empty when no key is pending) and
    the reading of [steady_clock::now()], in nanoseconds. *)
Record Event : Type := mkEvent { ev_input : string; ev_now : Z }.

(** The locals of [gameLoop] next to the globals; [terminal] lists what has
    been written to [std::cout], newest first. *)
Record Loop : Type := mkLoop {
  session        : State;
  lastUpdateTime : Z;
  terminal       : list string
}.

(** [duration_cast<std::chrono::milliseconds>] truncates. *)
Definition elapsedMs (currentTime lastUpdate : Z) : Z :=
  (currentTime - lastUpdate) ÷ 1000000.

Definition msDuration (cfg : Config) : Z :=
  let d := 120 - difficultyLevel cfg * 20 in
  if d <? 20 then 20 else d.

Section GameLoop.

Variable rand : nat -> Z.
Variable cfg : Config.

(** One simulation tick: [updateObstacles(); checkCollision();]. *)
Definition tick (s : State) : State :=
  checkCollision (updateObstacles rand s).

(** The body of [while (!gameOver)].  Nothing leaves the body early: the
    quit branch only assigns [gameOver]. *)
Definition loopBody (ev : Event) (l : Loop) : Loop :=
  let s1 := handleInput cfg (ev_input ev) (session l) in
  let due := elapsedMs (ev_now ev) (lastUpdateTime l) >=? msDuration cfg in
  let s2 := if due then tick s1 else s1 in
  let last := if due then ev_now ev else lastUpdateTime l in
  mkLoop s2 last (draw cfg s2 :: terminal l).

(** [while (!gameOver) body]; [None] when the events run out while the
    game is still running. *)
Fixpoint whileRunning (evs : list Event) (l : Loop) : option Loop :=
  if gameOver (session l) then Some l
  else match evs with
       | [] => None
       | ev :: rest => whileRunning rest (loopBody ev l)
       end.

(** [gameLoop] up to the call of [saveHighestScore]: [calls] is the state
    of the generator on entry, [start] the first clock reading. *)
Definition gameLoop_run (calls : nat) (start : Z) (evs : list Event)
  : option Loop :=
  whileRunning evs
    (mkLoop (freshSession calls) start [hideCursor; CLEAR_SCREEN]).

End GameLoop.

(* ================================================================= *)
(** ** High score persistence *)

(** The global [highestScore] and the file [highscore.txt]: its contents
    ([None] when the file does not exist) and whether the process may open
    it for reading and for writing. *)
Record Store : Type := mkStore {
  highestScore : Z;
  file         : option string;
  readable     : bool;
  writable     : bool
}.

Definition set_highestScore (v : Z) (st : Store) : Store :=
  mkStore v (file st) (readable st) (writable st).
Definition set_file (v : option string) (st : Store) : Store :=
  mkStore (highestScore st) v (readable st) (writable st).

Definition code (c : ascii) : Z := Z.of_nat (nat_of_ascii c).

(** [isspace] and [isdigit] in the "C" locale. *)
Definition isspace (c : ascii) : bool :=
  (code c =? 32) || ((9 <=? code c) && (code c <=? 13)).
Definition isdigit (c : ascii) : bool :=
  (48 <=? code c) && (code c <=? 57).

Fixpoint skipws (s : string) : string :=
  match s with
  | String c rest => if isspace c then skipws rest else s
  | EmptyString => s
  end.

(** The value of the leading decimal digits of [s]; [acc] is [None] until
    the first digit has been read. *)
Fixpoint readDigits (s : string) (acc : option Z) : option Z :=
  match s with
  | String c rest =>
      if isdigit c
      then readDigits rest
             (Some (10 * match acc with Some v => v | None => 0 end
                    + (code c - 48)))
      else acc
  | EmptyString => acc
  end.

Definition clampLL (v : Z) : Z :=
  if v >? LLONG_MAX then LLONG_MAX
  else if v <? LLONG_MIN then LLONG_MIN
  else v.

(** [is >> v] for a [long long v] with the default flags ([skipws], [dec]),
    C++11 rules: when the stream ends inside the leading white space the
    sentry fails and [v] keeps its value [old]; a field without digits
    stores 0; a value outside the type stores the nearest limit. *)
Definition extractLL (content : string) (old : Z) : Z :=
  match skipws content with
  | EmptyString => old
  | String c rest =>
      let neg := (c =? "-")%char in
      let body := if neg || (c =? "+")%char then rest else String c rest in
      match readDigits body None with
      | None => 0
      | Some v => clampLL (if neg then - v else v)
      end
  end.

Definition loadHighestScore (st : Store) : Store :=
  match file st with
  | Some content =>
      if readable st
      then set_highestScore (extractLL content (highestScore st)) st
      else st
  | None => st
  end.

(** [saveHighestScore], with the global [score] as an argument.  The
    [std::ofstream] truncates the file when it opens. *)
Definition saveHighestScore (score : Z) (st : Store) : Store :=
  if score >? highestScore st then
    let st1 := set_highestScore score st in
    if writable st1 then set_file (Some (showDec (highestScore st1))) st1
    else st1
  else st.

(** [gameLoop]: the run, then [saveHighestScore()]. *)
Definition gameLoop (rand : nat -> Z) (cfg : Config) (calls : nat)
    (start : Z) (evs : list Event) (st : Store) : option (Loop * Store) :=
  match gameLoop_run rand cfg calls start evs with
  | Some l => Some (l, saveHighestScore (score (session l)) st)
  | None => None
  end.

(* ================================================================= *)
(** ** Keyboard input (POSIX branch of [getInputSequence]) *)

(** The terminal in non-canonical mode with [VMIN = VTIME = 0]: the bytes
    waiting in the input queue, and the bytes that arrive during each of
    the following 8 ms sleeps (nothing arrives once the list is used up). *)
Record Tty : Type := mkTty { pending : string; arrivals : list string }.

Definition sleep8 (t : Tty) : Tty :=
  match arrivals t with
  | [] => t
  | a :: rest => mkTty (pending t ++ a)%string rest
  end.

(** [read(fd, buf, n)]: the first [n] bytes of the queue (fewer when the
    queue is shorter) and what stays behind. *)
Fixpoint readBytes (n : nat) (q : string) : string * string :=
  match n, q with
  | S m, String c rest => let (got, rest') := readBytes m rest in
                          (String c got, rest')
  | _, _ => (EmptyString, q)
  end.

Definition maxWaitMs : Z := 100.

(** What a call returns: the sequence, the device afterwards, and how many
    times the body of the wait loop ran. *)
Record Input : Type := mkInput { keys : string; device : Tty; rounds : nat }.

(** [while (waited < maxWaitMs) { ... }].  Every unit of [fuel] pays for one
    evaluation of the loop condition. *)
Fixpoint escapeWait (fuel : nat) (waited : Z) (res : string) (t : Tty)
    (n : nat) : option Input :=
  match fuel with
  | O => None
  | S f =>
      if waited <? maxWaitMs then
        let bytesAvailable := String.length (pending t) in
        if (0 <? bytesAvailable)%nat then
          let (buf, queue) := readBytes (Nat.min bytesAvailable 9) (pending t) in
          Some (mkInput (res ++ buf) (mkTty queue (arrivals t)) (S n))
        else escapeWait f (waited + 8) res (sleep8 t) (S n)
      else Some (mkInput res t n)
  end.

Definition getInputSequence_fuel (fuel : nat) (t : Tty) : option Input :=
  match pending t with
  | EmptyString => Some (mkInput "" t 0)          (* select() reports nothing *)
  | String c rest =>
      let t1 := mkTty rest (arrivals t) in
      if (c =? ESC)%char then escapeWait fuel 0 (str1 c) t1 0
      else Some (mkInput (str1 c) t1 0)
  end.

(** Fourteen evaluations of the loop condition are always enough (see
    [escapeWait_terminates]). *)
Definition getInputSequence (t : Tty) : option Input :=
  getInputSequence_fuel 14 t.

(* ================================================================= *)
(** ** Runs, and the vocabulary of the properties *)

(** The states of [gameLoop] at the head of its [while] loop. *)
Inductive reachable (rand : nat -> Z) (cfg : Config) : Loop -> Prop :=
| reach_start : forall calls start,
    reachable rand cfg
      (mkLoop (freshSession calls) start [hideCursor; CLEAR_SCREEN])
| reach_step : forall l ev,
    reachable rand cfg l ->
    gameOver (session l) = false ->
    reachable rand cfg (loopBody rand cfg ev l).

(** The states a field goes through from an empty one under
    [updateObstacles], with any steps in between that leave the field as it
    is (the input dispatch, the collision check). *)
Inductive fieldReachable (rand : nat -> Z) : State -> Prop :=
| field_fresh : forall s, obstacles s = [] -> fieldReachable rand s
| field_tick : forall s,
    fieldReachable rand s -> fieldReachable rand (updateObstacles rand s)
| field_kept : forall s s',
    fieldReachable rand s -> obstacles s' = obstacles s ->
    fieldReachable rand s'.

(** Rows decrease from the front to the back by at least 2 per obstacle. *)
Fixpoint spaced (v : list Car) : Prop :=
  match v with
  | a :: (b :: _) as rest => y b + 2 <= y a /\ spaced rest
  | _ => True
  end.

(** An obstacle-cleared event: [advance] took an obstacle out. *)
Definition cleared (s : State) : bool :=
  (List.length (obstacles (advance s)) <? List.length (obstacles s))%nat.

(** An obstacle stands on the player's cell. *)
Definition hit (s : State) : Prop :=
  exists obs, In obs (obstacles s) /\ y obs = SCREEN_HEIGHT /\ x obs = playerX s.

(** Whether an input reaches the quit branch of the dispatch. *)
Definition quits (cfg : Config) (input : string) : bool :=
  negb (input =? "")%string
  && negb (input =? moveLeftKey cfg)%string
  && negb (input =? moveRightKey cfg)%string
  && quitKey input.

(** The loop body as section 4.5 of the specification words it: a quit
    token ends the iteration at once, before the tick and the render. *)
Definition loopBody_as_specified (rand : nat -> Z) (cfg : Config)
    (ev : Event) (l : Loop) : Loop :=
  if quits cfg (ev_input ev)
  then mkLoop (set_gameOver true (session l)) (lastUpdateTime l) (terminal l)
  else loopBody rand cfg ev l.

(** The player's column is on the track. *)
Definition inTrack (px : Z) : Prop := 2 <= px <= TRACK_WIDTH + 1.

(** An obstacle is in one of the rows [draw] paints. *)
Definition onScreen (obs : Car) : Prop := 1 <= y obs <= SCREEN_HEIGHT.

(** No byte waits in the queue and none is on its way. *)
Definition quiet (t : Tty) : Prop :=
  pending t = ""%string /\ Forall (fun a => a = ""%string) (arrivals t).

(** A loop state whose tick is due at 100 ms, with one obstacle in the
    bottom row, away from the player. *)
Definition quitDemo : Loop :=
  mkLoop (mkState [mkCar 5 20] 11 0 false 0) 0 [].

(* ================================================================= *)
(** ** The level menu *)

Definition INT_MAX : Z := 2147483647.
Definition INT_MIN : Z := - 2147483648.

(** The leading decimal digits of [s] are consumed: their value ([None]
    when there is none) and what stays in the stream. *)
Fixpoint takeDigits (s : string) (acc : option Z) : option Z * string :=
  match s with
  | String c rest =>
      if isdigit c
      then takeDigits rest
             (Some (10 * match acc with Some v => v | None => 0 end
                    + (code c - 48)))
      else (acc, s)
  | EmptyString => (acc, s)
  end.

(** [std::cin >> v] for an [int v], as the test [!(std::cin >> v)] sees it:
    [None] when the extraction fails (end of input, no digit, or a value
    outside [int]), and the characters left in the stream. *)
Definition extractInt (cin : string) : option Z * string :=
  match skipws cin with
  | EmptyString => (None, EmptyString)
  | String c rest =>
      let neg := (c =? "-")%char in
      let body := if neg || (c =? "+")%char then rest else String c rest in
      let (digits, rest') := takeDigits body None in
      match digits with
      | None => (None, rest')
      | Some v =>
          let n := if neg then - v else v in
          if (n <? INT_MIN) || (n >? INT_MAX) then (None, rest')
          else (Some n, rest')
      end
  end.

(** [std::cin.ignore(n, '\n')]: characters are dropped until [n] of them
    are gone or a newline has been dropped. *)
Fixpoint ignore (n : nat) (cin : string) : string :=
  match n, cin with
  | S m, String c rest =>
      if (c =? ascii_of_nat 10)%char then rest else ignore m rest
  | _, _ => cin
  end.

(** [std::cin.get()], its result dropped. *)
Definition get1 (cin : string) : string :=
  match cin with String _ rest => rest | EmptyString => cin end.

(** What [showLevelSelect] does to the configuration and to [std::cin]
    (the text it prints and the terminal mode it toggles are not part of
    the result). *)
Definition showLevelSelect (cfg : Config) (cin : string) : Config * string :=
  let (parsed, cin1) := extractInt cin in
  let inputLevel :=
    match parsed with Some v => v | None => difficultyLevel cfg end in
  let cin2 := ignore 1000 cin1 in
  let level :=
    if (inputLevel >=? 1) && (inputLevel <=? 5) then inputLevel
    else difficultyLevel cfg in
  (mkConfig (moveLeftKey cfg) (moveRightKey cfg) level, get1 cin2).

(* ================================================================= *)
(** ** More vocabulary *)

(** Each obstacle is exactly 2 rows above the one spawned after it. *)
Fixpoint evenlySpaced (v : list Car) : Prop :=
  match v with
  | a :: (b :: _) as rest => y a = y b + 2 /\ evenlySpaced rest
  | _ => True
  end.

(** Every character of a string is white space. *)
Fixpoint blank (s : string) : bool :=
  match s with
  | String c rest => isspace c && blank rest
  | EmptyString => true
  end.

(** The bytes that arrive during the first [k] sleeps. *)
Definition arrived (k : nat) (t : Tty) : string :=
  String.concat "" (firstn k (arrivals t)).

(** The file holds the text of the global [highestScore]. *)
Definition inSync (st : Store) : Prop :=
  file st = Some (showDec (highestScore st)).

Definition startsWithDigit (s : string) : bool :=
  match s with String c _ => isdigit c | EmptyString => false end.

(* ================================================================= *)
(** * Properties *)

(** Case analysis on every test of an [if] chain in the goal. *)
Ltac case_ifs :=
  repeat match goal with
         | |- context [if ?b then _ else _] => destruct b
         end.

(** ** Collision check *)

Lemma checkCollision_loop_true (obs : list Car) (px : Z) (over : bool) :
  checkCollision_loop obs px over = true <->
  over = true \/
  exists o, In o obs /\ y o = SCREEN_HEIGHT /\ x o = px.
Proof.
  induction obs as [|o rest IH]; cbn [checkCollision_loop].
  - split; [now left | intros [H | (o & [] & _)]; exact H].
  - destruct ((y o =? SCREEN_HEIGHT) && (x o =? px)) eqn:E.
    + apply andb_true_iff in E. rewrite !Z.eqb_eq in E.
      split; [|reflexivity]. intros _. right. exists o. simpl. tauto.
    + rewrite IH. split; intros [H | (o' & Hin & Hy & Hx)]; try now left.
      * right. exists o'. simpl. tauto.
      * right. destruct Hin as [<- | Hin]; [|exists o'; tauto].
        rewrite <- Z.eqb_eq in Hy, Hx. rewrite Hy, Hx in E. discriminate.
Qed.

(** C1. [checkCollision] leaves [gameOver] set exactly when it was set
    before or some obstacle has row [SCREEN_HEIGHT] and the player's column;
    so on a running session it sets the flag if and only if there is such
    an obstacle.  It changes nothing else: the player's column, the score
    and the field are those it was called with. *)
Theorem checkCollision_reports_hit (s : State) :
  (gameOver (checkCollision s) = true <-> gameOver s = true \/ hit s)
  /\ (gameOver s = false -> (gameOver (checkCollision s) = true <-> hit s))
  /\ playerX (checkCollision s) = playerX s
  /\ score (checkCollision s) = score s
  /\ obstacles (checkCollision s) = obstacles s
  /\ randCalls (checkCollision s) = randCalls s.
Proof.
  unfold checkCollision, hit; simpl.
  split; [apply checkCollision_loop_true|].
  split; [|repeat split].
  intros Hrun. rewrite checkCollision_loop_true. split.
  - intros [H | H]; [congruence | exact H].
  - intros H. now right.
Qed.

Lemma checkCollision_reports_hit_witness :
  gameOver (checkCollision (mkState [mkCar 4 7; mkCar 11 20] 11 30 false 5))
  = true.
Proof.
  apply (checkCollision_reports_hit
           (mkState [mkCar 4 7; mkCar 11 20] 11 30 false 5)).
  - reflexivity.
  - exists (mkCar 11 20). simpl. auto.
Defined.

(** In a tick the check sees the field [updateObstacles] has just left. *)
Lemma tick_reports_hit (rand : nat -> Z) (s : State) :
  gameOver s = false ->
  (gameOver (tick rand s) = true <-> hit (updateObstacles rand s)).
Proof.
  intros H. unfold tick, checkCollision, hit.
  cbn [gameOver set_gameOver]. rewrite checkCollision_loop_true.
  assert (G : gameOver (updateObstacles rand s) = false).
  { unfold updateObstacles, maybeSpawn, advance.
    destruct (map bump (obstacles s)) as [|f r]; simpl;
      case_ifs;
      simpl; exact H. }
  rewrite G. split; [intros [C | C]; [discriminate | exact C] | now right].
Qed.

(** ** The advance step *)

Lemma advance_obstacles (s : State) :
  obstacles (advance s) =
  match obstacles s with
  | [] => []
  | front :: rest =>
      if y front + 1 >? SCREEN_HEIGHT then map bump rest
      else map bump (front :: rest)
  end.
Proof.
  unfold advance. destruct (obstacles s) as [|f r]; simpl; [reflexivity|].
  destruct (y f + 1 >? SCREEN_HEIGHT); reflexivity.
Qed.

(** C2. One [advance] splits the field into the obstacles it removes, taken
    from the front, and those it keeps: at most one is removed, every kept
    obstacle comes back in place with its row one greater and its column
    unchanged, and an obstacle is removed exactly when it is the front one
    and its incremented row is greater than [SCREEN_HEIGHT]. *)
Theorem advance_moves_and_retires (s : State) :
  exists removed kept,
    obstacles s = removed ++ kept
    /\ (List.length removed <= 1)%nat
    /\ obstacles (advance s) = map bump kept
    /\ Forall2 (fun old new => x new = x old /\ y new = y old + 1)
         kept (obstacles (advance s))
    /\ (forall o, In o removed <->
                  (exists rest, obstacles s = o :: rest)
                  /\ y (bump o) > SCREEN_HEIGHT).
Proof.
  assert (F : forall l, Forall2 (fun old new => x new = x old /\ y new = y old + 1)
                          l (map bump l)).
  { induction l; simpl; constructor; auto. }
  rewrite advance_obstacles. destruct (obstacles s) as [|f r].
  - exists [], []. simpl.
    split; [reflexivity|]. split; [lia|]. split; [reflexivity|].
    split; [constructor|]. intros o. split; [contradiction|].
    intros [[rest Hf] _]. discriminate.
  - destruct (y f + 1 >? SCREEN_HEIGHT) eqn:E.
    + exists [f], r. simpl.
      split; [reflexivity|]. split; [lia|]. split; [reflexivity|].
      split; [apply F|]. intros o. split.
      * intros [<- | []]. split; [now exists r | lia].
      * intros [[rest Hf] _]. left. congruence.
    + exists [], (f :: r). simpl.
      split; [reflexivity|]. split; [lia|]. split; [reflexivity|].
      split; [apply (F (f :: r))|]. intros o. split; [contradiction|].
      intros [[rest Hf] Hy]. injection Hf as -> _. lia.
Qed.

Lemma advance_moves_and_retires_witness :
  exists removed kept,
    [mkCar 7 20; mkCar 3 18] = removed ++ kept
    /\ obstacles (advance (mkState [mkCar 7 20; mkCar 3 18] 11 0 false 0))
       = map bump kept
    /\ (In (mkCar 7 20) removed <-> y (bump (mkCar 7 20)) > SCREEN_HEIGHT).
Proof.
  destruct (advance_moves_and_retires
              (mkState [mkCar 7 20; mkCar 3 18] 11 0 false 0))
    as (removed & kept & Hsplit & _ & Hkept & _ & Hrem).
  exists removed, kept. split; [exact Hsplit|]. split; [exact Hkept|].
  rewrite (Hrem (mkCar 7 20)). split; [tauto|].
  intros Hy. split; [eexists; reflexivity | exact Hy].
Defined.

(** ** Player movement *)

Lemma string_eqb_false (a b : string) : a <> b -> (a =? b)%string = false.
Proof. intros H. now apply String.eqb_neq. Qed.

(** None of the steps after the input dispatch writes [playerX]. *)
Lemma updateObstacles_playerX (rand : nat -> Z) (s : State) :
  playerX (updateObstacles rand s) = playerX s.
Proof.
  unfold updateObstacles, maybeSpawn, advance.
  destruct (map bump (obstacles s)) as [|f r]; simpl;
    case_ifs;
    reflexivity.
Qed.

Lemma tick_playerX (rand : nat -> Z) (s : State) :
  playerX (tick rand s) = playerX s.
Proof. unfold tick. simpl. apply updateObstacles_playerX. Qed.

Lemma handleInput_inTrack (cfg : Config) (input : string) (s : State) :
  inTrack (playerX s) -> inTrack (playerX (handleInput cfg input s)).
Proof.
  unfold inTrack, handleInput, TRACK_WIDTH. intros H.
  repeat match goal with |- context [if ?b then _ else _] => destruct b eqn:? end;
    simpl; lia.
Qed.

Lemma loopBody_playerX (rand : nat -> Z) (cfg : Config) (ev : Event) (l : Loop) :
  playerX (session (loopBody rand cfg ev l))
  = playerX (handleInput cfg (ev_input ev) (session l)).
Proof.
  unfold loopBody; simpl.
  destruct (elapsedMs _ _ >=? _); [apply tick_playerX | reflexivity].
Qed.

(** C3. At the head of every iteration of a run the player's column lies in
    [2, TRACK_WIDTH + 1], whatever inputs the run has received.  A left
    move at column 2 and a right move at column [TRACK_WIDTH + 1] return the
    state they were given; any other left move takes exactly one from the
    column and any other right move adds exactly one to it. *)
Theorem player_stays_in_track (rand : nat -> Z) (cfg : Config) (l : Loop) :
  reachable rand cfg l ->
  inTrack (playerX (session l))
  /\ (forall input, input <> ""%string ->
        (input = moveLeftKey cfg ->
           (playerX (session l) = 2 ->
              handleInput cfg input (session l) = session l)
           /\ (playerX (session l) <> 2 ->
                 playerX (handleInput cfg input (session l))
                 = playerX (session l) - 1))
        /\ (input <> moveLeftKey cfg -> input = moveRightKey cfg ->
              (playerX (session l) = TRACK_WIDTH + 1 ->
                 handleInput cfg input (session l) = session l)
              /\ (playerX (session l) <> TRACK_WIDTH + 1 ->
                    playerX (handleInput cfg input (session l))
                    = playerX (session l) + 1))).
Proof.
  intros R.
  assert (I : inTrack (playerX (session l))).
  { induction R as [calls start | l ev R IH Hrun].
    - simpl. unfold inTrack, START_PLAYER_X, TRACK_WIDTH. simpl. lia.
    - rewrite loopBody_playerX. now apply handleInput_inTrack. }
  split; [exact I|].
  unfold inTrack, TRACK_WIDTH in I.
  intros input Hne. unfold handleInput.
  rewrite (string_eqb_false _ _ Hne). split.
  - intros <-. rewrite String.eqb_refl. split; intros Hp.
    + rewrite Hp. reflexivity.
    + destruct (playerX (session l) >? 2) eqn:E; simpl; [reflexivity | lia].
  - intros Hl <-. rewrite (string_eqb_false _ _ Hl), String.eqb_refl.
    unfold TRACK_WIDTH. split; intros Hp.
    + rewrite Hp. reflexivity.
    + destruct (playerX (session l) <? 20 + 1) eqn:E; simpl; [reflexivity | lia].
Qed.

Lemma player_stays_in_track_witness :
  inTrack
    (playerX (session
       (loopBody (fun _ => 0) defaultConfig (mkEvent "a" 5)
          (mkLoop (freshSession 0) 0 [hideCursor; CLEAR_SCREEN])))).
Proof.
  apply (player_stays_in_track (fun _ => 0) defaultConfig).
  apply reach_step; [apply reach_start | reflexivity].
Defined.

(** ** Binding priority *)

Lemma quitKey_spec (input : string) :
  quitKey input = true <->
  input = "q"%string \/ input = "Q"%string
  \/ input = String (ascii_of_nat 3) EmptyString.
Proof.
  unfold quitKey. rewrite !orb_true_iff, !String.eqb_eq. tauto.
Qed.

(** C10. The dispatch tries the left binding, then the right binding, then
    the quit tokens.  An input equal to a binding moves the player (or
    leaves it at the edge of the track) and keeps [gameOver] as it was, also
    when the binding is one of "q", "Q" and Ctrl-C; the dispatch ends a
    running game exactly when the input is none of the two bindings and is
    one of the three quit tokens. *)
Theorem bindings_before_quit (cfg : Config) (input : string) (s : State) :
  input <> ""%string ->
  (input = moveLeftKey cfg ->
     gameOver (handleInput cfg input s) = gameOver s
     /\ playerX (handleInput cfg input s)
        = (if playerX s >? 2 then playerX s - 1 else playerX s))
  /\ (input <> moveLeftKey cfg -> input = moveRightKey cfg ->
        gameOver (handleInput cfg input s) = gameOver s
        /\ playerX (handleInput cfg input s)
           = (if playerX s <? TRACK_WIDTH + 1 then playerX s + 1 else playerX s))
  /\ (gameOver s = false ->
        (gameOver (handleInput cfg input s) = true <->
         input <> moveLeftKey cfg /\ input <> moveRightKey cfg
         /\ (input = "q"%string \/ input = "Q"%string
             \/ input = String (ascii_of_nat 3) EmptyString))).
Proof.
  intros Hne. unfold handleInput. rewrite (string_eqb_false _ _ Hne).
  split; [|split].
  - intros <-. rewrite String.eqb_refl.
    destruct (playerX s >? 2); simpl; auto.
  - intros Hl <-. rewrite (string_eqb_false _ _ Hl), String.eqb_refl.
    destruct (playerX s <? TRACK_WIDTH + 1); simpl; auto.
  - intros Hrun. rewrite <- quitKey_spec.
    destruct (input =? moveLeftKey cfg)%string eqn:El.
    + apply String.eqb_eq in El.
      destruct (playerX s >? 2); simpl; rewrite Hrun;
        (split; [discriminate | intros (H & _); contradiction]).
    + apply String.eqb_neq in El.
      destruct (input =? moveRightKey cfg)%string eqn:Er.
      * apply String.eqb_eq in Er.
        destruct (playerX s <? TRACK_WIDTH + 1); simpl; rewrite Hrun;
          (split; [discriminate | intros (_ & H & _); contradiction]).
      * apply String.eqb_neq in Er.
        destruct (quitKey input); simpl.
        -- split; auto.
        -- rewrite Hrun. split; [discriminate | intros (_ & _ & H); discriminate].
Qed.

Lemma bindings_before_quit_witness :
  gameOver (handleInput (mkConfig "q" "d" 1) "q" (freshSession 0)) = false
  /\ playerX (handleInput (mkConfig "q" "d" 1) "q" (freshSession 0)) = 10.
Proof.
  assert (Hne : "q"%string <> ""%string) by discriminate.
  destruct (bindings_before_quit (mkConfig "q" "d" 1) "q" (freshSession 0) Hne)
    as (Hleft & _ & _).
  exact (Hleft eq_refl).
Defined.

(** ** Score *)

Lemma advance_score (s : State) :
  score (advance s) = if cleared s then score s + 10 else score s.
Proof.
  unfold cleared, advance.
  rewrite <- (length_map bump (obstacles s)).
  destruct (map bump (obstacles s)) as [|f r]; [reflexivity|].
  destruct (y f >? SCREEN_HEIGHT); cbn [obstacles set_obstacles set_score score].
  - replace (List.length r <? List.length (f :: r))%nat with true; [reflexivity|].
    symmetry. apply Nat.ltb_lt. simpl. lia.
  - rewrite Nat.ltb_irrefl. reflexivity.
Qed.

Lemma maybeSpawn_score (rand : nat -> Z) (s : State) :
  score (maybeSpawn rand s) = score s.
Proof. unfold maybeSpawn. destruct (shouldSpawn rand s); reflexivity. Qed.

Lemma handleInput_score (cfg : Config) (input : string) (s : State) :
  score (handleInput cfg input s) = score s.
Proof.
  unfold handleInput.
  case_ifs;
    reflexivity.
Qed.

Lemma tick_score (rand : nat -> Z) (s : State) :
  score (tick rand s) = if cleared s then score s + 10 else score s.
Proof.
  unfold tick, updateObstacles. simpl.
  rewrite maybeSpawn_score. apply advance_score.
Qed.

(** C4. The score of a session starts at 0.  [updateObstacles] adds exactly
    10 to it when it clears an obstacle and leaves it alone otherwise; the
    input dispatch and the collision check return the score they were
    given, and so does a whole iteration (input, render) in which no tick is
    due; [draw] only computes text from the state.  Hence no iteration
    lowers the score, and it is never negative in a run. *)
Theorem score_only_grows_by_clearing (rand : nat -> Z) (cfg : Config) :
  (forall calls, score (freshSession calls) = 0)
  /\ (forall s, score (updateObstacles rand s)
                = if cleared s then score s + 10 else score s)
  /\ (forall input s, score (handleInput cfg input s) = score s)
  /\ (forall s, score (checkCollision s) = score s)
  /\ (forall ev l,
        (elapsedMs (ev_now ev) (lastUpdateTime l) <? msDuration cfg) = true ->
        score (session (loopBody rand cfg ev l)) = score (session l))
  /\ (forall ev l,
        score (session l) <= score (session (loopBody rand cfg ev l)))
  /\ (forall l, reachable rand cfg l -> 0 <= score (session l)).
Proof.
  assert (Hbody : forall ev l,
             score (session l) <= score (session (loopBody rand cfg ev l))).
  { intros ev l. unfold loopBody; simpl.
    destruct (elapsedMs _ _ >=? _).
    - rewrite tick_score, handleInput_score. destruct (cleared _); lia.
    - rewrite handleInput_score. lia. }
  split; [reflexivity|].
  split; [intros s; apply (tick_score rand s)|].
  split; [apply handleInput_score|].
  split; [reflexivity|].
  split; [|split; [exact Hbody|]].
  - intros ev l Hnot. unfold loopBody; simpl.
    replace (elapsedMs (ev_now ev) (lastUpdateTime l) >=? msDuration cfg)
      with false by (symmetry; rewrite Z.geb_leb; apply Z.leb_gt; lia).
    apply handleInput_score.
  - intros l R. induction R as [calls start | l ev R IH Hrun].
    + simpl. lia.
    + specialize (Hbody ev l). lia.
Qed.

Lemma score_only_grows_by_clearing_witness :
  score (session
    (loopBody (fun _ => 0) defaultConfig (mkEvent "d" 99999999)
       (mkLoop (mkState [mkCar 3 20] 11 40 false 0) 0 [])))
  = 40.
Proof.
  destruct (score_only_grows_by_clearing (fun _ => 0) defaultConfig)
    as (_ & _ & _ & _ & Hidle & _).
  apply (Hidle (mkEvent "d" 99999999)
               (mkLoop (mkState [mkCar 3 20] 11 40 false 0) 0 [])).
  reflexivity.
Defined.

(** ** Quit *)

Lemma quits_handleInput (cfg : Config) (input : string) (s : State) :
  quits cfg input = true -> handleInput cfg input s = set_gameOver true s.
Proof.
  unfold quits, handleInput. rewrite !andb_true_iff, !negb_true_iff.
  intros (((-> & ->) & ->) & ->). reflexivity.
Qed.

Lemma tick_keeps_gameOver (rand : nat -> Z) (s : State) :
  gameOver s = true -> gameOver (tick rand s) = true.
Proof.
  intros H. unfold tick.
  apply (checkCollision_loop_true _ _ _). left.
  unfold updateObstacles, maybeSpawn, advance.
  destruct (map bump (obstacles s)) as [|f r]; simpl;
    case_ifs;
    simpl; exact H.
Qed.

(** C5, amended.  When the input reaches the quit branch (it is one of the
    quit tokens and neither binding), the iteration sets [gameOver] and
    then goes on as any other: the tick runs if it is due, on the state
    with the flag set, and the frame is drawn.  The loop stops at its next
    test, so no further iteration follows. *)
Theorem quit_finishes_the_iteration (rand : nat -> Z) (cfg : Config)
    (ev : Event) (l : Loop) :
  quits cfg (ev_input ev) = true ->
  let due := elapsedMs (ev_now ev) (lastUpdateTime l) >=? msDuration cfg in
  let s1 := set_gameOver true (session l) in
  let s2 := if due then tick rand s1 else s1 in
  loopBody rand cfg ev l
  = mkLoop s2 (if due then ev_now ev else lastUpdateTime l)
      (draw cfg s2 :: terminal l)
  /\ gameOver (session (loopBody rand cfg ev l)) = true
  /\ (forall rest, whileRunning rand cfg rest (loopBody rand cfg ev l)
                   = Some (loopBody rand cfg ev l)).
Proof.
  intros Hq due s1 s2.
  assert (E : loopBody rand cfg ev l
              = mkLoop s2 (if due then ev_now ev else lastUpdateTime l)
                  (draw cfg s2 :: terminal l)).
  { unfold loopBody. rewrite (quits_handleInput _ _ _ Hq). reflexivity. }
  assert (G : gameOver (session (loopBody rand cfg ev l)) = true).
  { rewrite E. simpl. unfold s2. destruct due.
    - now apply tick_keeps_gameOver.
    - reflexivity. }
  split; [exact E|]. split; [exact G|].
  intros rest. destruct rest; cbn [whileRunning]; rewrite G; reflexivity.
Qed.

Lemma quit_finishes_the_iteration_witness :
  gameOver (session
    (loopBody (fun _ => 9) defaultConfig (mkEvent "q" 100000000) quitDemo))
  = true.
Proof.
  apply (quit_finishes_the_iteration (fun _ => 9) defaultConfig
           (mkEvent "q" 100000000) quitDemo).
  reflexivity.
Defined.

(** C5 as the specification words it fails: with the default bindings, a
    "q" read in an iteration whose tick is due still moves the obstacle at
    row 20 off the screen, scores it, and draws a frame. *)
Lemma quit_does_not_skip_the_tick :
  quits defaultConfig "q" = true
  /\ loopBody (fun _ => 9) defaultConfig (mkEvent "q" 100000000) quitDemo
     <> loopBody_as_specified (fun _ => 9) defaultConfig
          (mkEvent "q" 100000000) quitDemo
  /\ score (session (loopBody (fun _ => 9) defaultConfig
                       (mkEvent "q" 100000000) quitDemo)) = 10
  /\ obstacles (session (loopBody (fun _ => 9) defaultConfig
                           (mkEvent "q" 100000000) quitDemo)) = []
  /\ List.length (terminal (loopBody (fun _ => 9) defaultConfig
                              (mkEvent "q" 100000000) quitDemo))
     = 1%nat.
Proof.
  split; [reflexivity|]. split; [|repeat split].
  intros H. apply (f_equal (fun l => score (session l))) in H.
  vm_compute in H. discriminate.
Qed.

(** ** Spawn policy *)

Lemma empty_spec (v : list Car) : empty v = true <-> v = [].
Proof. destruct v; simpl; split; congruence. Qed.

Lemma empty_spec_false (v : list Car) : v <> [] -> empty v = false.
Proof. destruct v; simpl; congruence. Qed.

Lemma rem_of_block (m k i : Z) :
  0 < m -> 0 <= k -> 0 <= i < m -> Z.rem (m * k + i) m = i.
Proof.
  intros Hm Hk Hi. rewrite Z.rem_mod_nonneg by nia.
  rewrite Z.add_comm, Z.mul_comm, Z.mod_add by lia.
  apply Z.mod_small. lia.
Qed.

Lemma count_in_range (f : Z -> bool) (g : nat -> bool) (lo : Z) (n : nat) :
  (forall i, (i < n)%nat -> f (lo + Z.of_nat i) = g i) ->
  List.length (filter f (range lo n)) = List.length (filter g (seq 0 n)).
Proof.
  intros H. unfold range.
  assert (G : forall l, (forall i, In i l -> (i < n)%nat) ->
                List.length (filter f (map (fun i => lo + Z.of_nat i) l))
                = List.length (filter g l)).
  { induction l as [|i l IH]; intros Hl; simpl; [reflexivity|].
    rewrite (H i) by (apply Hl; now left).
    destruct (g i); simpl; rewrite IH; auto; intros j Hj; apply Hl; now right. }
  apply G. intros i Hi. apply in_seq in Hi. lia.
Qed.

(** C6. The spawn step spawns exactly when the field is empty and the draw
    [rand() % 10 < 3] succeeds, or the field is not empty and the row of its
    back obstacle is greater than 2.  A spawned obstacle is appended at the
    back with row 1 and column [rand() % TRACK_WIDTH + 2], which lies in
    [2, TRACK_WIDTH + 1]; without a spawn the field is unchanged.  The draw
    succeeds for 3 of every 10 consecutive values of [rand()], and each
    column of the track is produced by exactly one of every [TRACK_WIDTH]
    consecutive values. *)
Theorem spawn_policy (rand : nat -> Z) (s : State) :
  (forall n, 0 <= rand n) ->
  (shouldSpawn rand s = true <->
     (obstacles s = [] /\ Z.rem (rand (randCalls s)) 10 < 3)
     \/ (obstacles s <> [] /\ y (back (obstacles s)) > 2))
  /\ (shouldSpawn rand s = true ->
        exists col,
          col = Z.rem (rand (S (randCalls s))) TRACK_WIDTH + 2
          /\ 2 <= col <= TRACK_WIDTH + 1
          /\ obstacles (maybeSpawn rand s) = obstacles s ++ [mkCar col 1])
  /\ (shouldSpawn rand s = false ->
        obstacles (maybeSpawn rand s) = obstacles s)
  /\ (forall k, 0 <= k ->
        List.length (filter spawnDraw (range (10 * k) 10)) = 3%nat)
  /\ (forall k col, 0 <= k -> 2 <= col <= TRACK_WIDTH + 1 ->
        List.length
          (filter (fun r => spawnColumn r =? col)
             (range (TRACK_WIDTH * k) (Z.to_nat TRACK_WIDTH)))
        = 1%nat).
Proof.
  intros Hrand. split; [|split; [|split; [|split]]].
  - unfold shouldSpawn, spawnDraw.
    rewrite orb_true_iff, !andb_true_iff, negb_true_iff, Z.ltb_lt.
    rewrite empty_spec, <- not_true_iff_false, empty_spec. split.
    + intros [[H1 H2] | [H1 H2]]; [left | right]; split; auto.
      apply Z.gtb_lt in H2. lia.
    + intros [[H1 H2] | [H1 H2]]; [left | right]; split; auto.
      apply Z.gtb_lt. lia.
  - intros Hs. unfold maybeSpawn. rewrite Hs. simpl.
    exists (spawnColumn (rand (S (randCalls s)))).
    split; [reflexivity|]. split; [|reflexivity].
    unfold spawnColumn, TRACK_WIDTH.
    specialize (Hrand (S (randCalls s))).
    rewrite Z.rem_mod_nonneg by lia.
    pose proof (Z.mod_pos_bound (rand (S (randCalls s))) 20). lia.
  - intros Hs. unfold maybeSpawn. rewrite Hs. reflexivity.
  - intros k Hk.
    rewrite (count_in_range spawnDraw (fun i => (i <? 3)%nat)).
    + reflexivity.
    + intros i Hi. unfold spawnDraw.
      rewrite rem_of_block by lia.
      destruct (Nat.ltb_spec i 3); [apply Z.ltb_lt | apply Z.ltb_ge]; lia.
  - intros k col Hk Hcol. unfold TRACK_WIDTH in *.
    rewrite (count_in_range _ (fun i => (i =? Z.to_nat (col - 2))%nat)).
    + assert (E : exists c, (c < 20)%nat /\ Z.to_nat (col - 2) = c).
      { exists (Z.to_nat (col - 2)). split; [lia | reflexivity]. }
      destruct E as (c & Hc & ->).
      do 20 (destruct c as [|c]; [reflexivity|]). lia.
    + intros i Hi. unfold spawnColumn, TRACK_WIDTH.
      change (Z.to_nat 20) with 20%nat in Hi.
      rewrite rem_of_block by lia.
      destruct (Nat.eqb_spec i (Z.to_nat (col - 2)));
        [apply Z.eqb_eq | apply Z.eqb_neq]; lia.
Qed.

Lemma spawn_policy_witness :
  exists col,
    col = 9 /\ 2 <= col <= TRACK_WIDTH + 1
    /\ obstacles (maybeSpawn (fun n => Z.of_nat n + 5) (mkState [mkCar 4 3] 11 0 false 1))
       = [mkCar 4 3; mkCar col 1].
Proof.
  assert (Hrand : forall n, 0 <= (fun n => Z.of_nat n + 5) n) by (intros n; lia).
  destruct (spawn_policy (fun n => Z.of_nat n + 5)
              (mkState [mkCar 4 3] 11 0 false 1) Hrand)
    as (_ & Hspawn & _).
  destruct (Hspawn eq_refl) as (col & Hc & Hb & Ho).
  exists col. split; [exact Hc|]. split; [exact Hb | exact Ho].
Defined.

(** ** Spacing of the field *)

Lemma spaced_bump (v : list Car) : spaced v -> spaced (map bump v).
Proof.
  induction v as [|a [|b v] IH]; simpl; auto.
  intros [H1 H2]. split; [lia | apply IH, H2].
Qed.

Lemma spaced_tail (a : Car) (v : list Car) : spaced (a :: v) -> spaced v.
Proof. destruct v; simpl; tauto. Qed.

Lemma spaced_below_front (a : Car) (v : list Car) :
  spaced (a :: v) -> Forall (fun o => y o + 2 <= y a) v.
Proof.
  revert a. induction v as [|b v IH]; intros a H; constructor.
  - apply H.
  - destruct H as [H1 H2]. apply IH in H2.
    eapply Forall_impl; [|exact H2]. simpl. intros o Ho. lia.
Qed.

Lemma spaced_push_back (v : list Car) (c : Car) :
  spaced v -> (v <> [] -> y c + 2 <= y (back v)) -> spaced (v ++ [c]).
Proof.
  induction v as [|a [|b v] IH]; intros Hs Hb.
  - exact I.
  - simpl. split; [|exact I]. apply Hb. discriminate.
  - destruct Hs as [H1 H2]. change (spaced (a :: (b :: v) ++ [c])).
    change ((b :: v) ++ [c]) with (b :: (v ++ [c])) at 1.
    cbn [spaced]. split; [exact H1|].
    apply IH; [exact H2|]. intros _. apply Hb. discriminate.
Qed.

Lemma spaced_strongly_sorted (v : list Car) :
  spaced v -> StronglySorted (fun a b => y b < y a) v.
Proof.
  induction v as [|a v IH]; intros H; constructor.
  - apply IH. eapply spaced_tail, H.
  - eapply Forall_impl; [|apply spaced_below_front, H]. simpl. intros; lia.
Qed.

Lemma filter_none {A : Type} (f : A -> bool) (v : list A) :
  Forall (fun a => f a = false) v -> filter f v = [].
Proof.
  induction 1 as [|a v Ha _ IH]; simpl; [reflexivity|].
  rewrite Ha. exact IH.
Qed.

(** After the rows have been incremented, only the front obstacle can be
    below the screen. *)
Lemma bumped_rest_on_screen (a : Car) (v : list Car) :
  spaced (a :: v) -> Forall onScreen (a :: v) ->
  Forall (fun o => 2 <= y o <= SCREEN_HEIGHT - 1) (map bump v).
Proof.
  intros Hs Hon. apply spaced_below_front in Hs.
  inversion Hon as [|? ? Ha Hv]; subst.
  apply Forall_map. rewrite Forall_forall in *.
  intros o Ho. specialize (Hs o Ho). specialize (Hv o Ho).
  unfold onScreen, SCREEN_HEIGHT in *. simpl. lia.
Qed.

Lemma advance_keeps_spacing (s : State) :
  spaced (obstacles s) -> Forall onScreen (obstacles s) ->
  spaced (obstacles (advance s))
  /\ Forall (fun o => 2 <= y o <= SCREEN_HEIGHT) (obstacles (advance s)).
Proof.
  intros Hs Hon. rewrite advance_obstacles.
  destruct (obstacles s) as [|a v] eqn:E; [split; constructor|].
  pose proof (bumped_rest_on_screen a v Hs Hon) as Hrest.
  destruct (y a + 1 >? SCREEN_HEIGHT) eqn:Ey.
  - split; [apply spaced_bump; eapply spaced_tail; exact Hs|].
    eapply Forall_impl; [|exact Hrest]. cbv beta. intros; lia.
  - split; [apply (spaced_bump (a :: v)), Hs|].
    cbn [map]. constructor.
    + inversion Hon; subst. unfold onScreen in *. cbn [bump y]. lia.
    + eapply Forall_impl; [|exact Hrest]. cbv beta. intros; lia.
Qed.

Lemma back_push (v : list Car) (c : Car) : back (v ++ [c]) = c.
Proof. unfold back. apply last_last. Qed.

Lemma maybeSpawn_keeps_spacing (rand : nat -> Z) (s : State) :
  spaced (obstacles s) ->
  Forall (fun o => 2 <= y o <= SCREEN_HEIGHT) (obstacles s) ->
  spaced (obstacles (maybeSpawn rand s))
  /\ Forall onScreen (obstacles (maybeSpawn rand s)).
Proof.
  intros Hs Hon. unfold maybeSpawn.
  destruct (shouldSpawn rand s) eqn:E; simpl.
  - split.
    + apply spaced_push_back; [exact Hs|]. intros Hne.
      unfold shouldSpawn in E.
      apply empty_spec_false in Hne. rewrite Hne, andb_false_r in E.
      cbn [negb andb orb] in E. cbn [y]. lia.
    + apply Forall_app. split.
      * eapply Forall_impl; [|exact Hon]. unfold onScreen. simpl. intros; lia.
      * constructor; [|constructor]. unfold onScreen, SCREEN_HEIGHT. simpl. lia.
  - split; [exact Hs|].
    eapply Forall_impl; [|exact Hon]. unfold onScreen. simpl. intros; lia.
Qed.

Lemma field_invariant (rand : nat -> Z) (s : State) :
  fieldReachable rand s ->
  spaced (obstacles s) /\ Forall onScreen (obstacles s).
Proof.
  induction 1 as [s E | s R [IH1 IH2] | s s' R [IH1 IH2] E].
  - rewrite E. split; constructor.
  - unfold updateObstacles.
    destruct (advance_keeps_spacing s IH1 IH2) as [H1 H2].
    now apply maybeSpawn_keeps_spacing.
  - rewrite E. now split.
Qed.

(** C9. In every state the field reaches from an empty one under
    [updateObstacles], each obstacle is at least 2 rows above the one spawned
    before it, so the rows decrease strictly from the front to the back, and
    every row lies in [1, SCREEN_HEIGHT].  In the next update, once the rows
    have been incremented at most one obstacle is below the screen, and
    after the front one has been tested and removed none is. *)
Theorem obstacles_stay_spaced (rand : nat -> Z) (s : State) :
  fieldReachable rand s ->
  spaced (obstacles s)
  /\ StronglySorted (fun a b => y b < y a) (obstacles s)
  /\ Forall onScreen (obstacles s)
  /\ (List.length (filter (fun o => y o >? SCREEN_HEIGHT)
                     (map bump (obstacles s))) <= 1)%nat
  /\ Forall (fun o => y o <= SCREEN_HEIGHT) (obstacles (advance s)).
Proof.
  intros R. destruct (field_invariant rand s R) as [Hs Hon].
  split; [exact Hs|]. split; [now apply spaced_strongly_sorted|].
  split; [exact Hon|]. split.
  - destruct (obstacles s) as [|a v]; [simpl; lia|].
    pose proof (bumped_rest_on_screen a v Hs Hon) as Hrest.
    simpl. rewrite (filter_none _ (map bump v)).
    + destruct (y a + 1 >? SCREEN_HEIGHT); simpl; lia.
    + eapply Forall_impl; [|exact Hrest]. cbv beta. intros o Ho.
      rewrite Z.gtb_ltb. apply Z.ltb_ge. lia.
  - destruct (advance_keeps_spacing s Hs Hon) as [_ H].
    eapply Forall_impl; [|exact H]. simpl. intros; lia.
Qed.

Lemma obstacles_stay_spaced_witness :
  spaced (obstacles
    (updateObstacles (fun _ => 1)
       (updateObstacles (fun _ => 1)
          (updateObstacles (fun _ => 1) (freshSession 0))))).
Proof.
  apply (obstacles_stay_spaced (fun _ => 1)).
  do 3 apply field_tick. apply field_fresh. reflexivity.
Defined.

(** The rows the program computes stay far inside [int]: a row is at most
    [SCREEN_HEIGHT + 1], reached only by the front obstacle between its
    increment and its removal. *)
Lemma rows_fit_int (rand : nat -> Z) (s : State) :
  fieldReachable rand s ->
  Forall (fun o => 2 <= y o <= SCREEN_HEIGHT + 1) (map bump (obstacles s)).
Proof.
  intros R. destruct (field_invariant rand s R) as [_ Hon].
  apply Forall_map. eapply Forall_impl; [|exact Hon].
  unfold onScreen. cbn [bump y]. intros; lia.
Qed.

(** The field of a run of [gameLoop] is such a field. *)
Lemma reachable_field (rand : nat -> Z) (cfg : Config) (l : Loop) :
  reachable rand cfg l -> fieldReachable rand (session l).
Proof.
  induction 1 as [calls start | l ev R IH Hrun].
  - apply field_fresh. reflexivity.
  - unfold loopBody; simpl.
    assert (Hin : fieldReachable rand (handleInput cfg (ev_input ev) (session l))).
    { apply (field_kept rand (session l)); [exact IH|].
      unfold handleInput.
      case_ifs;
        reflexivity. }
    destruct (elapsedMs _ _ >=? _); [|exact Hin].
    unfold tick. eapply field_kept; [apply field_tick, Hin | reflexivity].
Qed.

(** ** High score: printing and reading back *)

Lemma digitChar_decimal (d : Z) :
  0 <= d < 10 ->
  isdigit (digitChar d) = true
  /\ code (digitChar d) - 48 = d
  /\ isspace (digitChar d) = false
  /\ (digitChar d =? "-")%char = false
  /\ (digitChar d =? "+")%char = false.
Proof.
  intros H.
  assert (C : d = 0 \/ d = 1 \/ d = 2 \/ d = 3 \/ d = 4 \/ d = 5 \/ d = 6
              \/ d = 7 \/ d = 8 \/ d = 9) by lia.
  repeat (destruct C as [-> | C]; [vm_compute; auto|]).
  subst d. vm_compute. auto.
Qed.

Lemma digitsOf_head (fuel : nat) (n : Z) (acc : string) :
  exists d tail,
    0 <= d < 10 /\ digitsOf 10 (S fuel) n acc = String (digitChar d) tail.
Proof.
  revert n acc. induction fuel as [|f IH]; intros n acc.
  - exists (n mod 10), acc. split; [apply Z.mod_pos_bound; lia|].
    simpl. destruct (n / 10 =? 0); reflexivity.
  - cbn [digitsOf]. destruct (n / 10 =? 0).
    + exists (n mod 10), acc. split; [apply Z.mod_pos_bound; lia | reflexivity].
    + apply IH.
Qed.

Lemma readDigits_digitsOf (fuel : nat) (n : Z) (rest : string) :
  0 <= n < 2 ^ Z.of_nat (S fuel) ->
  readDigits (digitsOf 10 (S fuel) n rest) None = readDigits rest (Some n).
Proof.
  assert (One : forall m acc, 0 <= m -> m / 10 = 0 ->
            readDigits (String (digitChar (m mod 10)) acc) None
            = readDigits acc (Some m)).
  { intros m acc Hm Hq. cbn [readDigits].
    destruct (digitChar_decimal (m mod 10)) as (-> & -> & _);
      [apply Z.mod_pos_bound; lia|].
    do 2 f_equal. pose proof (Z.div_mod m 10). lia. }
  revert n rest. induction fuel as [|f IH]; intros n rest Hn.
  - cbn [digitsOf]. change (2 ^ Z.of_nat 1) with 2 in Hn.
    assert (Hq : n / 10 = 0) by (apply Z.div_small; lia).
    rewrite Hq. simpl (0 =? 0). cbv iota. now apply One.
  - cbn [digitsOf]. destruct (n / 10 =? 0) eqn:Hq.
    + apply Z.eqb_eq in Hq. now apply One.
    + change (readDigits (digitsOf 10 (S f) (n / 10)
                (String (digitChar (n mod 10)) rest)) None
              = readDigits rest (Some n)).
      rewrite IH.
      * cbn [readDigits].
        destruct (digitChar_decimal (n mod 10)) as (-> & -> & _);
          [apply Z.mod_pos_bound; lia|].
        do 2 f_equal. pose proof (Z.div_mod n 10). lia.
      * rewrite Nat2Z.inj_succ, Z.pow_succ_r in Hn by lia.
        split; [apply Z.div_pos; lia|].
        apply Z.div_lt_upper_bound; lia.
Qed.

Lemma digitFuel_enough (n : Z) : 0 <= n -> 0 <= n < 2 ^ Z.of_nat (digitFuel n).
Proof.
  intros Hn. unfold digitFuel.
  rewrite Nat2Z.inj_succ, Z2Nat.id by apply Z.log2_nonneg.
  split; [exact Hn|].
  destruct (Z.eq_dec n 0) as [-> | Hz]; [reflexivity|].
  apply Z.log2_spec. lia.
Qed.

(** What [operator<<] writes, [operator>>] reads back. *)
Lemma extractLL_showDec (n old : Z) :
  LLONG_MIN <= n <= LLONG_MAX -> extractLL (showDec n) old = n.
Proof.
  intros Hn. unfold showDec, digitFuel.
  assert (Hclamp : clampLL n = n).
  { unfold clampLL.
    destruct (Z.gtb_spec n LLONG_MAX); [lia|].
    destruct (Z.ltb_spec n LLONG_MIN); [lia | reflexivity]. }
  destruct (Z.ltb_spec n 0) as [Hneg | Hpos].
  - unfold extractLL. cbn [skipws]. change (isspace "-") with false. cbv iota.
    rewrite Ascii.eqb_refl. cbn [orb].
    rewrite readDigits_digitsOf by (apply digitFuel_enough; lia).
    cbn [readDigits]. rewrite Z.opp_involutive. exact Hclamp.
  - pose proof (readDigits_digitsOf (Z.to_nat (Z.log2 n)) n ""
                  (digitFuel_enough n Hpos)) as Hread.
    destruct (digitsOf_head (Z.to_nat (Z.log2 n)) n "") as (d & tail & Hd & E).
    rewrite E in *. unfold extractLL. cbn [skipws].
    destruct (digitChar_decimal d Hd) as (_ & _ & -> & -> & ->).
    cbn [orb]. rewrite Hread. cbn [readDigits]. exact Hclamp.
Qed.

(** C7. For a final score [sc] (a [long long]) and a stored high score:
    saving a score that is not greater leaves the store (the global and the
    file) as it was; saving a greater score sets [highestScore] to it and,
    when the file can be opened for writing, makes the file hold its
    decimal text; loading after such a save gives back [sc], also into a
    global that held another value, provided the file can be read. *)
Theorem highscore_save_then_load (sc : Z) (st : Store) :
  LLONG_MIN <= sc <= LLONG_MAX ->
  (sc <= highestScore st -> saveHighestScore sc st = st)
  /\ (sc > highestScore st ->
        highestScore (saveHighestScore sc st) = sc
        /\ (writable st = true ->
              file (saveHighestScore sc st) = Some (showDec sc)
              /\ highestScore (loadHighestScore (saveHighestScore sc st)) = sc
              /\ (readable st = true ->
                    forall other,
                      highestScore
                        (loadHighestScore
                           (set_highestScore other (saveHighestScore sc st)))
                      = sc))).
Proof.
  intros Hsc. unfold saveHighestScore. split.
  - intros Hle. destruct (Z.gtb_spec sc (highestScore st)); [lia | reflexivity].
  - intros Hgt. destruct (Z.gtb_spec sc (highestScore st)); [|lia].
    cbn [set_highestScore writable highestScore].
    split; [destruct (writable st); reflexivity|].
    intros ->. unfold loadHighestScore.
    cbn [set_file set_highestScore file readable writable highestScore].
    split; [reflexivity|]. split.
    + destruct (readable st); cbn [highestScore]; [|reflexivity].
      now apply extractLL_showDec.
    + intros -> other. cbn [highestScore]. now apply extractLL_showDec.
Qed.

Lemma highscore_save_then_load_witness :
  highestScore
    (loadHighestScore
       (set_highestScore 0
          (saveHighestScore 130 (mkStore 120 (Some "120"%string) true true))))
  = 130.
Proof.
  assert (Hsc : LLONG_MIN <= 130 <= LLONG_MAX) by (unfold LLONG_MIN, LLONG_MAX; lia).
  destruct (highscore_save_then_load 130
              (mkStore 120 (Some "120"%string) true true) Hsc) as (_ & Hsave).
  assert (Hgt : 130 > highestScore (mkStore 120 (Some "120"%string) true true))
    by (simpl; lia).
  destruct (Hsave Hgt) as (_ & Hfile).
  destruct (Hfile eq_refl) as (_ & _ & Hload).
  exact (Hload eq_refl 0).
Defined.

(** ** Reading a key: the bounded wait after an escape byte *)

(** With [fuel] evaluations of the loop condition in hand, of which the last
    finds [waited >= maxWaitMs], the loop returns; its body runs fewer than
    [(maxWaitMs + 8 - waited) / 8] more times. *)
Lemma escapeWait_terminates (fuel : nat) :
  forall (waited : Z) (res : string) (t : Tty) (n : nat),
    (1 <= fuel)%nat ->
    maxWaitMs - waited <= 8 * (Z.of_nat fuel - 1) ->
    exists r,
      escapeWait fuel waited res t n = Some r
      /\ (n <= rounds r)%nat
      /\ (waited < maxWaitMs ->
            8 * (Z.of_nat (rounds r) - Z.of_nat n) < maxWaitMs + 8 - waited)
      /\ (maxWaitMs <= waited -> rounds r = n).
Proof.
  unfold maxWaitMs.
  induction fuel as [|f IH]; intros waited res t n Hf Hw; [lia|].
  cbn [escapeWait]. unfold maxWaitMs.
  destruct (Z.ltb_spec waited 100) as [Hlt | Hge].
  - destruct (0 <? String.length (pending t))%nat.
    + destruct (readBytes _ _) as [buf queue].
      eexists. split; [reflexivity|]. cbn [rounds]. lia.
    + destruct (IH (waited + 8) res (sleep8 t) (S n)) as (r & E & Hn & Hlt' & Hge');
        [lia | lia |].
      exists r. split; [exact E|]. split; [lia|]. split; [|lia].
      intros _. destruct (Z.lt_ge_cases (waited + 8) 100) as [H | H].
      * specialize (Hlt' H). lia.
      * specialize (Hge' H). lia.
  - eexists. split; [reflexivity|]. cbn [rounds]. lia.
Qed.

Lemma escapeWait_more_fuel (fuel fuel' : nat) :
  forall (waited : Z) (res : string) (t : Tty) (n : nat) (r : Input),
    escapeWait fuel waited res t n = Some r ->
    (fuel <= fuel')%nat ->
    escapeWait fuel' waited res t n = Some r.
Proof.
  revert fuel'. induction fuel as [|f IH]; intros fuel' waited res t n r E Hle.
  - discriminate.
  - destruct fuel' as [|f']; [lia|]. cbn [escapeWait] in *.
    destruct (waited <? maxWaitMs); [|exact E].
    destruct (0 <? String.length (pending t))%nat; [exact E|].
    apply IH; [exact E | lia].
Qed.

Lemma quiet_sleep8 (t : Tty) : quiet t -> quiet (sleep8 t).
Proof.
  unfold quiet, sleep8. intros [Hp Ha].
  destruct (arrivals t) as [|a rest] eqn:E.
  - rewrite E. now split.
  - inversion Ha as [|? ? Hhd Htl]; subst. split; [|exact Htl].
    cbn [pending]. rewrite Hp. reflexivity.
Qed.

Lemma escapeWait_quiet_step (fuel : nat) (waited : Z) (res : string)
    (t : Tty) (n : nat) :
  quiet t -> waited < maxWaitMs ->
  escapeWait (S fuel) waited res t n
  = escapeWait fuel (waited + 8) res (sleep8 t) (S n).
Proof.
  intros [Hp _] Hw. cbn [escapeWait]. unfold maxWaitMs in *.
  destruct (Z.ltb_spec waited 100); [|lia].
  rewrite Hp. reflexivity.
Qed.

(** C8. [getInputSequence] returns for every state of the terminal: fourteen
    evaluations of the wait loop's condition are always enough (more change
    nothing), and the body of the loop runs at most 13 = ceil(100 / 8)
    times.  When an escape byte is alone in the queue and nothing follows,
    the loop runs its 13 rounds and the call returns the escape byte by
    itself, which [keyToDisplay] shows as the sequence dump "SEQ(0x1B )". *)
Theorem getInputSequence_returns (t : Tty) :
  (exists r, getInputSequence t = Some r /\ (rounds r <= 13)%nat)
  /\ (forall fuel, (14 <= fuel)%nat ->
        getInputSequence_fuel fuel t = getInputSequence t)
  /\ (pending t = str1 ESC ->
      Forall (fun a => a = ""%string) (arrivals t) ->
      exists dev,
        getInputSequence t = Some (mkInput (str1 ESC) dev 13)
        /\ quiet dev
        /\ keyToDisplay (str1 ESC) = "SEQ(0x1B )"%string).
Proof.
  assert (T : exists r, getInputSequence t = Some r /\ (rounds r <= 13)%nat).
  { unfold getInputSequence, getInputSequence_fuel.
    destruct (pending t) as [|c rest].
    - eexists. split; [reflexivity | simpl; lia].
    - destruct (c =? ESC)%char.
      + destruct (escapeWait_terminates 14 0 (str1 c) (mkTty rest (arrivals t)) 0)
          as (r & E & _ & Hlt & _); [lia | unfold maxWaitMs; lia |].
        exists r. split; [exact E|].
        unfold maxWaitMs in Hlt. lia.
      + eexists. split; [reflexivity | simpl; lia]. }
  split; [exact T|]. split.
  - intros fuel Hf. destruct T as (r & E & _). rewrite E.
    unfold getInputSequence, getInputSequence_fuel in *.
    destruct (pending t) as [|c rest]; [exact E|].
    destruct (c =? ESC)%char; [|exact E].
    eapply escapeWait_more_fuel; [exact E | exact Hf].
  - intros Hp Ha. unfold getInputSequence, getInputSequence_fuel.
    rewrite Hp. unfold str1 at 1. rewrite Ascii.eqb_refl.
    assert (Q : quiet (mkTty "" (arrivals t))) by (split; [reflexivity | exact Ha]).
    revert Q. generalize (mkTty "" (arrivals t)). intros d Q.
    do 13 (rewrite escapeWait_quiet_step;
           [| repeat apply quiet_sleep8; exact Q | unfold maxWaitMs; lia]).
    eexists. split; [reflexivity|].
    split; [repeat apply quiet_sleep8; exact Q | reflexivity].
Qed.

Lemma getInputSequence_returns_witness :
  exists dev,
    getInputSequence (mkTty (str1 ESC) [""%string; ""%string])
    = Some (mkInput (str1 ESC) dev 13)
    /\ quiet dev
    /\ keyToDisplay (str1 ESC) = "SEQ(0x1B )"%string.
Proof.
  destruct (getInputSequence_returns (mkTty (str1 ESC) [""%string; ""%string]))
    as (_ & _ & Hlone).
  apply Hlone; [reflexivity | repeat constructor].
Defined.

(* ================================================================= *)
(** * Further properties of the program *)

(** ** When a run ends *)

Lemma updateObstacles_gameOver (rand : nat -> Z) (s : State) :
  gameOver (updateObstacles rand s) = gameOver s.
Proof.
  unfold updateObstacles, maybeSpawn, advance.
  destruct (map bump (obstacles s)) as [|f r]; simpl; case_ifs; reflexivity.
Qed.

Lemma handleInput_obstacles (cfg : Config) (input : string) (s : State) :
  obstacles (handleInput cfg input s) = obstacles s.
Proof. unfold handleInput. case_ifs; reflexivity. Qed.

(** What [updateObstacles] leaves in the field: the moved obstacles, but
    for a front one that left the screen, and possibly a new one. *)
Lemma updateObstacles_field (rand : nat -> Z) (s : State) :
  exists spawned,
    obstacles (updateObstacles rand s) = obstacles (advance s) ++ spawned
    /\ Forall (fun o => y o = 1) spawned.
Proof.
  unfold updateObstacles, maybeSpawn.
  destruct (shouldSpawn rand (advance s)).
  - eexists. split; [reflexivity|]. repeat constructor.
  - exists []. split; [symmetry; apply app_nil_r | constructor].
Qed.

(** X1. A tick on a running session ends the game exactly when, before the
    tick, an obstacle stood in row [SCREEN_HEIGHT - 1] in the player's
    column.  An obstacle that starts the tick in the bottom row is moved
    past it and cannot collide any more. *)
Theorem tick_hits_from_the_row_above (rand : nat -> Z) (s : State) :
  gameOver s = false ->
  (gameOver (tick rand s) = true <->
   exists obs, In obs (obstacles s)
               /\ y obs = SCREEN_HEIGHT - 1 /\ x obs = playerX s).
Proof.
  intros Hrun. unfold tick, checkCollision. cbn [gameOver set_gameOver].
  rewrite checkCollision_loop_true, updateObstacles_gameOver, Hrun.
  rewrite updateObstacles_playerX.
  destruct (updateObstacles_field rand s) as (spawned & -> & Hsp).
  rewrite advance_obstacles. unfold SCREEN_HEIGHT. split.
  - intros [C | (o & Hin & Hy & Hx)]; [discriminate|].
    apply in_app_or in Hin. destruct Hin as [Hin | Hin].
    + assert (Hm : In o (map bump (obstacles s))).
      { destruct (obstacles s) as [|f r]; [contradiction|].
        destruct (y f + 1 >? 20); [now right | exact Hin]. }
      apply in_map_iff in Hm. destruct Hm as (o0 & <- & Hin0).
      exists o0. cbn [bump x y] in *. repeat split; [exact Hin0 | lia | exact Hx].
    + rewrite Forall_forall in Hsp. specialize (Hsp o Hin). lia.
  - intros (o & Hin & Hy & Hx). right. exists (bump o).
    cbn [bump x y]. split; [|split; [lia | exact Hx]].
    apply in_or_app. left.
    destruct (obstacles s) as [|f r]; [contradiction|].
    destruct (Z.gtb_spec (y f + 1) 20) as [Hout | Hkeep].
    + destruct Hin as [<- | Hin]; [lia | now apply in_map].
    + now apply (in_map bump (f :: r)).
Qed.

Lemma tick_hits_from_the_row_above_witness :
  gameOver (tick (fun _ => 5) (mkState [mkCar 11 19; mkCar 3 17] 11 0 false 0))
  = true.
Proof.
  apply (tick_hits_from_the_row_above (fun _ => 5)
           (mkState [mkCar 11 19; mkCar 3 17] 11 0 false 0)).
  - reflexivity.
  - exists (mkCar 11 19). simpl. auto.
Defined.

(** X2. An iteration of the loop turns a running game into a finished one
    exactly when its input reaches the quit branch, or its tick is due and
    the updated field has an obstacle on the player's cell, the player
    being where the input of this same iteration has put it. *)
Theorem iteration_ends_the_run (rand : nat -> Z) (cfg : Config)
    (ev : Event) (l : Loop) :
  gameOver (session l) = false ->
  (gameOver (session (loopBody rand cfg ev l)) = true <->
   quits cfg (ev_input ev) = true
   \/ ((elapsedMs (ev_now ev) (lastUpdateTime l) >=? msDuration cfg) = true
       /\ hit (updateObstacles rand
                 (handleInput cfg (ev_input ev) (session l))))).
Proof.
  intros Hrun.
  assert (Hin : gameOver (handleInput cfg (ev_input ev) (session l)) = true
                <-> quits cfg (ev_input ev) = true).
  { unfold handleInput, quits.
    destruct (ev_input ev =? "")%string; cbn [negb andb]; [rewrite Hrun; easy|].
    destruct (ev_input ev =? moveLeftKey cfg)%string; cbn [negb andb].
    { destruct (playerX (session l) >? 2); simpl; rewrite Hrun; easy. }
    destruct (ev_input ev =? moveRightKey cfg)%string; cbn [negb andb].
    { destruct (playerX (session l) <? TRACK_WIDTH + 1); simpl; rewrite Hrun; easy. }
    destruct (quitKey (ev_input ev)); simpl; [easy | rewrite Hrun; easy]. }
  unfold loopBody. cbn [session].
  destruct (elapsedMs (ev_now ev) (lastUpdateTime l) >=? msDuration cfg).
  - unfold tick, checkCollision. cbn [gameOver set_gameOver].
    rewrite checkCollision_loop_true, updateObstacles_gameOver, Hin.
    unfold hit. rewrite updateObstacles_playerX. tauto.
  - rewrite Hin. split; [now left | intros [H | [H _]]; [exact H | discriminate]].
Qed.

Lemma iteration_ends_the_run_witness :
  gameOver (session
    (loopBody (fun _ => 5) defaultConfig (mkEvent "d" 100000000)
       (mkLoop (mkState [mkCar 12 19] 11 0 false 0) 0 [])))
  = true.
Proof.
  apply (iteration_ends_the_run (fun _ => 5) defaultConfig
           (mkEvent "d" 100000000)
           (mkLoop (mkState [mkCar 12 19] 11 0 false 0) 0 [])).
  - reflexivity.
  - right. split; [reflexivity|]. exists (mkCar 12 20). simpl. auto.
Defined.

(** ** The rhythm of the field *)

Lemma back_cons (a b : Car) (v : list Car) : back (a :: b :: v) = back (b :: v).
Proof. reflexivity. Qed.

Lemma back_bump (v : list Car) : v <> [] -> back (map bump v) = bump (back v).
Proof.
  induction v as [|a [|b v] IH]; intros H; [contradiction | reflexivity |].
  change (map bump (a :: b :: v)) with (bump a :: bump b :: map bump v).
  rewrite !back_cons. apply IH. discriminate.
Qed.

Lemma evenlySpaced_bump (v : list Car) :
  evenlySpaced v -> evenlySpaced (map bump v).
Proof.
  induction v as [|a [|b v] IH]; simpl; auto.
  intros [H1 H2]. split; [lia | apply IH, H2].
Qed.

Lemma evenlySpaced_tail (a : Car) (v : list Car) :
  evenlySpaced (a :: v) -> evenlySpaced v.
Proof. destruct v; simpl; tauto. Qed.

Lemma evenlySpaced_push_back (v : list Car) (c : Car) :
  evenlySpaced v -> (v <> [] -> y (back v) = y c + 2) ->
  evenlySpaced (v ++ [c]).
Proof.
  induction v as [|a [|b v] IH]; intros Hs Hb.
  - exact I.
  - simpl. split; [|exact I]. apply Hb. discriminate.
  - destruct Hs as [H1 H2].
    change (evenlySpaced (a :: b :: (v ++ [c]))). cbn [evenlySpaced].
    split; [exact H1|].
    apply IH; [exact H2|]. intros _. apply Hb. discriminate.
Qed.

(** The field after the first half of an update, when it held obstacles
    spaced by 2 with the back one in row 1 or 2: nothing is lost at the back,
    and the back obstacle has moved to row 2 or 3. *)
Lemma advance_rhythm (s : State) :
  evenlySpaced (obstacles s) ->
  obstacles s <> [] ->
  1 <= y (back (obstacles s)) <= 2 ->
  evenlySpaced (obstacles (advance s))
  /\ obstacles (advance s) <> []
  /\ y (back (obstacles (advance s))) = y (back (obstacles s)) + 1.
Proof.
  intros Hs Hne Hb. rewrite advance_obstacles.
  destruct (obstacles s) as [|f r] eqn:E; [contradiction|].
  destruct (Z.gtb_spec (y f + 1) SCREEN_HEIGHT) as [Hout | Hkeep].
  - destruct r as [|g r].
    + unfold SCREEN_HEIGHT in Hout. unfold back in Hb. cbn [last] in Hb. lia.
    + split; [apply evenlySpaced_bump; eapply evenlySpaced_tail; exact Hs|].
      split; [discriminate|].
      rewrite back_bump by discriminate. rewrite back_cons. reflexivity.
  - split; [apply (evenlySpaced_bump (f :: r)), Hs|].
    split; [discriminate|].
    rewrite back_bump by discriminate. reflexivity.
Qed.

Lemma shouldSpawn_nonempty (rand : nat -> Z) (s : State) :
  obstacles s <> [] ->
  shouldSpawn rand s = (y (back (obstacles s)) >? 2).
Proof.
  intros H. unfold shouldSpawn.
  rewrite (empty_spec_false _ H), andb_false_r. reflexivity.
Qed.

Lemma field_rhythm (rand : nat -> Z) (s : State) :
  fieldReachable rand s ->
  evenlySpaced (obstacles s)
  /\ (obstacles s <> [] -> 1 <= y (back (obstacles s)) <= 2).
Proof.
  induction 1 as [s E | s R [IH1 IH2] | s s' R IH E].
  - rewrite E. split; [exact I | intros H; now contradiction H].
  - unfold updateObstacles, maybeSpawn.
    destruct (obstacles s) as [|f r] eqn:E.
    + assert (A : obstacles (advance s) = []).
      { rewrite advance_obstacles, E. reflexivity. }
      destruct (shouldSpawn rand (advance s));
        cbn [obstacles set_obstacles set_randCalls]; rewrite A.
      * split; [exact I | intros _; simpl; lia].
      * split; [exact I | intros H; now contradiction H].
    + assert (Hne : obstacles s <> []) by (rewrite E; discriminate).
      rewrite <- E in *.
      destruct (advance_rhythm s IH1 Hne (IH2 Hne)) as (A1 & A2 & A3).
      specialize (IH2 Hne).
      rewrite (shouldSpawn_nonempty rand _ A2), A3.
      destruct (Z.gtb_spec (y (back (obstacles s)) + 1) 2) as [Hs | Hs];
        cbn [obstacles set_obstacles set_randCalls].
      * split; [|intros _; rewrite back_push; simpl; lia].
        apply evenlySpaced_push_back; [exact A1|].
        intros _. rewrite A3. simpl. lia.
      * split; [exact A1|]. intros _. rewrite A3. lia.
  - rewrite E. exact IH.
Qed.

(** X3. In every field reached from an empty one, each obstacle is exactly
    2 rows above the one spawned after it, and the back obstacle is in row
    1 or 2: the obstacles come down evenly spaced. *)
Theorem obstacles_evenly_spaced (rand : nat -> Z) (s : State) :
  fieldReachable rand s ->
  evenlySpaced (obstacles s)
  /\ (obstacles s <> [] -> 1 <= y (back (obstacles s)) <= 2).
Proof. apply field_rhythm. Qed.

Lemma obstacles_evenly_spaced_witness :
  evenlySpaced (obstacles
    (updateObstacles (fun _ => 1)
       (updateObstacles (fun _ => 1)
          (updateObstacles (fun _ => 1)
             (updateObstacles (fun _ => 1) (freshSession 0)))))).
Proof.
  apply (obstacles_evenly_spaced (fun _ => 1)).
  do 4 apply field_tick. apply field_fresh. reflexivity.
Defined.

(** X4. Once a field reached from an empty one holds an obstacle it never
    becomes empty again, so the random draw only decides when the first
    obstacle appears; from then on an update spawns exactly when the back
    obstacle was in row 2, that is on every second tick. *)
Theorem field_never_empties (rand : nat -> Z) (s : State) :
  fieldReachable rand s ->
  obstacles s <> [] ->
  obstacles (updateObstacles rand s) <> []
  /\ (shouldSpawn rand (advance s) = true <-> y (back (obstacles s)) = 2)
  /\ (shouldSpawn rand (advance s) = false <-> y (back (obstacles s)) = 1).
Proof.
  intros R Hne. destruct (field_rhythm rand s R) as [Hs Hb].
  specialize (Hb Hne).
  destruct (advance_rhythm s Hs Hne Hb) as (_ & A2 & A3).
  split.
  - destruct (updateObstacles_field rand s) as (spawned & -> & _).
    intros H. apply app_eq_nil in H. now destruct H.
  - rewrite (shouldSpawn_nonempty rand _ A2), A3.
    destruct (Z.gtb_spec (y (back (obstacles s)) + 1) 2); split; split;
      intros; try reflexivity; try discriminate; lia.
Qed.

Lemma field_never_empties_witness :
  obstacles (updateObstacles (fun _ => 1)
               (updateObstacles (fun _ => 1) (freshSession 0))) <> [].
Proof.
  apply (field_never_empties (fun _ => 1)
           (updateObstacles (fun _ => 1) (freshSession 0))).
  - apply field_tick, field_fresh. reflexivity.
  - discriminate.
Defined.

Lemma spaced_length (v : list Car) :
  spaced v -> Forall (fun o => 1 <= y o) v ->
  match v with
  | [] => True
  | front :: _ => 2 * Z.of_nat (List.length v) <= y front + 1
  end.
Proof.
  induction v as [|a [|b v] IH]; intros Hs Hy; [exact I | |].
  - inversion Hy; subst. simpl. lia.
  - destruct Hs as [H1 H2]. inversion Hy as [|? ? _ Hy']; subst.
    specialize (IH H2 Hy').
    change (List.length (a :: b :: v)) with (S (List.length (b :: v))).
    rewrite Nat2Z.inj_succ. lia.
Qed.

Lemma strictly_sorted_rows_NoDup (v : list Car) :
  StronglySorted (fun a b => y b < y a) v -> NoDup (map y v).
Proof.
  induction 1 as [|a v _ IH Ha]; simpl; constructor; [|exact IH].
  rewrite in_map_iff. intros (b & Hb & Hin).
  rewrite Forall_forall in Ha. specialize (Ha b Hin). lia.
Qed.

(** X5. A field reached from an empty one never holds more than 10
    obstacles, and no two of them are in the same row. *)
Theorem field_is_small (rand : nat -> Z) (s : State) :
  fieldReachable rand s ->
  (List.length (obstacles s) <= 10)%nat /\ NoDup (map y (obstacles s)).
Proof.
  intros R. destruct (field_invariant rand s R) as [Hs Hon]. split.
  - assert (Hy : Forall (fun o => 1 <= y o) (obstacles s)).
    { eapply Forall_impl; [|exact Hon]. unfold onScreen. intros; lia. }
    pose proof (spaced_length _ Hs Hy) as L.
    destruct (obstacles s) as [|f r]; [simpl; lia|].
    inversion Hon as [|? ? Hf _]; subst.
    unfold onScreen, SCREEN_HEIGHT in Hf. lia.
  - now apply strictly_sorted_rows_NoDup, spaced_strongly_sorted.
Qed.

Lemma field_is_small_witness :
  (List.length (obstacles
     (updateObstacles (fun _ => 1%Z)
        (updateObstacles (fun _ => 1%Z)
           (updateObstacles (fun _ => 1%Z) (freshSession 0))))) <= 10)%nat.
Proof.
  apply (field_is_small (fun _ => 1)).
  do 3 apply field_tick. apply field_fresh. reflexivity.
Defined.

(** X6. When [rand()] returns non-negative values, every obstacle of a
    field reached from an empty one is in a column of the track, between
    the two borders [draw] paints. *)
Theorem obstacles_on_the_track (rand : nat -> Z) (s : State) :
  (forall n, 0 <= rand n) ->
  fieldReachable rand s ->
  Forall (fun o => inTrack (x o)) (obstacles s).
Proof.
  intros Hrand. induction 1 as [s E | s R IH | s s' R IH E].
  - rewrite E. constructor.
  - assert (A : Forall (fun o => inTrack (x o)) (obstacles (advance s))).
    { rewrite advance_obstacles.
      assert (M : forall l, Forall (fun o => inTrack (x o)) l ->
                            Forall (fun o => inTrack (x o)) (map bump l)).
      { intros l Hl. apply Forall_map. exact Hl. }
      destruct (obstacles s) as [|f r]; [constructor|].
      destruct (y f + 1 >? SCREEN_HEIGHT); [|now apply (M (f :: r))].
      apply M. now inversion IH. }
    unfold updateObstacles, maybeSpawn.
    destruct (shouldSpawn rand (advance s));
      cbn [obstacles set_obstacles set_randCalls]; [|exact A].
    apply Forall_app. split; [exact A|].
    constructor; [|constructor]. cbn [x].
    unfold inTrack, spawnColumn, TRACK_WIDTH.
    specialize (Hrand (S (randCalls (advance s)))).
    rewrite Z.rem_mod_nonneg by lia.
    pose proof (Z.mod_pos_bound (rand (S (randCalls (advance s)))) 20). lia.
  - rewrite E. exact IH.
Qed.

Lemma obstacles_on_the_track_witness :
  Forall (fun o => inTrack (x o))
    (obstacles (updateObstacles (fun n => Z.of_nat n * 7)
                  (updateObstacles (fun n => Z.of_nat n * 7) (freshSession 0)))).
Proof.
  apply (obstacles_on_the_track (fun n => Z.of_nat n * 7)).
  - intros n. lia.
  - do 2 apply field_tick. apply field_fresh. reflexivity.
Defined.

(** ** Score and high score of a whole run *)

Lemma whileRunning_reachable (rand : nat -> Z) (cfg : Config)
    (evs : list Event) :
  forall l l',
    reachable rand cfg l ->
    whileRunning rand cfg evs l = Some l' ->
    reachable rand cfg l' /\ gameOver (session l') = true.
Proof.
  induction evs as [|ev rest IH]; intros l l' R E; cbn [whileRunning] in E;
    destruct (gameOver (session l)) eqn:G.
  - injection E as <-. now split.
  - discriminate.
  - injection E as <-. now split.
  - apply (IH (loopBody rand cfg ev l)); [|exact E].
    now apply reach_step.
Qed.

Lemma score_counts_cleared_obstacles_aux (rand : nat -> Z) (cfg : Config)
    (l : Loop) :
  reachable rand cfg l ->
  exists k, 0 <= k /\ score (session l) = 10 * k.
Proof.
  induction 1 as [calls start | l ev R (k & Hk & IH) Hrun].
  - exists 0. split; [lia | reflexivity].
  - unfold loopBody. cbn [session].
    destruct (elapsedMs (ev_now ev) (lastUpdateTime l) >=? msDuration cfg).
    + rewrite tick_score, handleInput_score, IH.
      destruct (cleared _); [exists (k + 1) | exists k]; lia.
    + rewrite handleInput_score, IH. exists k. lia.
Qed.

(** X7. The score of a run is always a multiple of 10, in the states the
    loop goes through and in the state [gameLoop] ends with: there is a
    count [k] of cleared obstacles with [score = 10 * k]. *)
Theorem score_counts_cleared_obstacles (rand : nat -> Z) (cfg : Config)
    (l : Loop) :
  reachable rand cfg l ->
  (exists k, 0 <= k /\ score (session l) = 10 * k)
  /\ (forall evs l',
        whileRunning rand cfg evs l = Some l' ->
        exists k, 0 <= k /\ score (session l') = 10 * k).
Proof.
  intros R. split; [exact (score_counts_cleared_obstacles_aux rand cfg l R)|].
  intros evs l' E.
  apply (score_counts_cleared_obstacles_aux rand cfg).
  now apply (whileRunning_reachable rand cfg evs l l').
Qed.

Lemma score_counts_cleared_obstacles_witness :
  exists k, 0 <= k /\
    score (session
      (loopBody (fun _ => 0) defaultConfig (mkEvent "a" 100000000)
         (mkLoop (freshSession 0) 0 [hideCursor; CLEAR_SCREEN])))
    = 10 * k.
Proof.
  apply (score_counts_cleared_obstacles (fun _ => 0) defaultConfig).
  apply reach_step; [apply reach_start | reflexivity].
Defined.

(** X8. When [gameLoop] returns, the game is over and the stored high score
    is the greater of the old high score and the score of the run; it is
    never lowered. *)
Theorem gameLoop_records_the_best (rand : nat -> Z) (cfg : Config)
    (calls : nat) (start : Z) (evs : list Event) (st st' : Store) (l : Loop) :
  gameLoop rand cfg calls start evs st = Some (l, st') ->
  gameOver (session l) = true
  /\ 0 <= score (session l)
  /\ highestScore st' = Z.max (highestScore st) (score (session l))
  /\ highestScore st <= highestScore st'.
Proof.
  unfold gameLoop, gameLoop_run.
  destruct (whileRunning _ _ _ _) as [l0|] eqn:E; [|discriminate].
  intros H. injection H as <- <-.
  destruct (whileRunning_reachable rand cfg evs _ _ (reach_start rand cfg calls start) E)
    as [R G].
  destruct (score_counts_cleared_obstacles_aux rand cfg l0 R) as (k & Hk & Hs).
  split; [exact G|]. split; [lia|].
  unfold saveHighestScore.
  destruct (Z.gtb_spec (score (session l0)) (highestScore st)).
  - unfold set_file, set_highestScore. cbn [writable highestScore].
    destruct (writable st); cbn [highestScore]; lia.
  - lia.
Qed.

Lemma gameLoop_records_the_best_witness :
  highestScore (mkStore 50 None true true)
  <= highestScore (saveHighestScore 0 (mkStore 50 None true true)).
Proof.
  eapply (gameLoop_records_the_best (fun _ => 0) defaultConfig 0 0
            [mkEvent "q" 1] (mkStore 50 None true true)).
  reflexivity.
Defined.

(** ** The high score store *)

Lemma append_empty_r (s : string) : (s ++ "")%string = s.
Proof. induction s as [|c s IH]; simpl; [reflexivity | now rewrite IH]. Qed.

Lemma append_assoc (a b c : string) :
  ((a ++ b) ++ c)%string = (a ++ (b ++ c))%string.
Proof. induction a as [|ch a IH]; simpl; [reflexivity | now rewrite IH]. Qed.


Lemma skipws_blank (ws body : string) :
  blank ws = true -> skipws (ws ++ body) = skipws body.
Proof.
  induction ws as [|c ws IH]; intros H; [reflexivity|].
  cbn [blank] in H. apply andb_true_iff in H. destruct H as [Hc Hws].
  cbn [append skipws]. rewrite Hc. now apply IH.
Qed.

Lemma digitsOf_append (base : Z) (fuel : nat) :
  forall (n : Z) (acc tail : string),
    (digitsOf base fuel n acc ++ tail)%string
    = digitsOf base fuel n (acc ++ tail).
Proof.
  induction fuel as [|f IH]; intros n acc tail; cbn [digitsOf]; [reflexivity|].
  destruct (n / base =? 0); [reflexivity|]. now rewrite IH.
Qed.

Lemma readDigits_stops (tail : string) (acc : option Z) :
  startsWithDigit tail = false -> readDigits tail acc = acc.
Proof.
  destruct tail as [|c tail]; [reflexivity|].
  cbn [startsWithDigit readDigits]. now intros ->.
Qed.

(** X9. [saveHighestScore] makes [highestScore] the greater of the score
    and the old value, and saving the same score again changes nothing.
    The file is rewritten only when the record is beaten and the file can
    be opened for writing, and then it holds the text of the new record; so
    a store whose file matches the global keeps matching when the file is
    writable. *)
Theorem saveHighestScore_keeps_the_best (sc : Z) (st : Store) :
  highestScore (saveHighestScore sc st) = Z.max sc (highestScore st)
  /\ saveHighestScore sc (saveHighestScore sc st) = saveHighestScore sc st
  /\ (file (saveHighestScore sc st) <> file st ->
        sc > highestScore st /\ writable st = true
        /\ file (saveHighestScore sc st) = Some (showDec sc))
  /\ (inSync st -> writable st = true -> inSync (saveHighestScore sc st)).
Proof.
  unfold saveHighestScore, inSync.
  destruct (Z.gtb_spec sc (highestScore st)) as [Hgt | Hle].
  - unfold set_file, set_highestScore. cbn [writable highestScore].
    destruct (writable st) eqn:W; cbn [highestScore file writable];
      rewrite ?W; cbn [highestScore file].
    + rewrite Z.gtb_ltb, Z.ltb_irrefl.
      repeat split; try lia; auto.
    + rewrite Z.gtb_ltb, Z.ltb_irrefl.
      repeat split; try lia; try congruence.
  - destruct (Z.gtb_spec sc (highestScore st)); [lia|].
    repeat split; try lia; try congruence; auto.
Qed.

Lemma saveHighestScore_keeps_the_best_witness :
  inSync (saveHighestScore 70 (mkStore 40 (Some "40"%string) true true)).
Proof.
  apply (saveHighestScore_keeps_the_best 70
           (mkStore 40 (Some "40"%string) true true)); reflexivity.
Defined.



(** X11. Reading is tolerant of what surrounds the number: when the file
    holds white space, then the decimal text of a [long long] [n], then
    anything that does not start with a digit, [loadHighestScore] sets
    [highestScore] to [n]. *)
Theorem loadHighestScore_reads_padded_number (n : Z) (ws tail : string)
    (st : Store) :
  LLONG_MIN <= n <= LLONG_MAX ->
  blank ws = true ->
  startsWithDigit tail = false ->
  readable st = true ->
  file st = Some (ws ++ showDec n ++ tail)%string ->
  highestScore (loadHighestScore st) = n.
Proof.
  intros Hn Hws Htail Hr Hf. unfold loadHighestScore. rewrite Hf, Hr.
  cbn [set_highestScore highestScore]. unfold extractLL.
  rewrite (skipws_blank ws _ Hws).
  assert (Hclamp : clampLL n = n).
  { unfold clampLL.
    destruct (Z.gtb_spec n LLONG_MAX); [lia|].
    destruct (Z.ltb_spec n LLONG_MIN); [lia | reflexivity]. }
  unfold showDec, digitFuel. destruct (Z.ltb_spec n 0) as [Hneg | Hpos].
  - cbn [append skipws]. change (isspace "-") with false. cbv iota.
    rewrite Ascii.eqb_refl. cbn [orb].
    rewrite digitsOf_append.
    rewrite readDigits_digitsOf by (apply digitFuel_enough; lia).
    cbn [append]. rewrite (readDigits_stops tail _ Htail).
    rewrite Z.opp_involutive. exact Hclamp.
  - rewrite digitsOf_append. cbn [append].
    pose proof (readDigits_digitsOf (Z.to_nat (Z.log2 n)) n tail
                  (digitFuel_enough n Hpos)) as Hread.
    destruct (digitsOf_head (Z.to_nat (Z.log2 n)) n tail) as (d & rest & Hd & E).
    rewrite E in *. cbn [skipws].
    destruct (digitChar_decimal d Hd) as (_ & _ & -> & -> & ->).
    cbn [orb]. rewrite Hread, (readDigits_stops tail _ Htail). exact Hclamp.
Qed.

Lemma loadHighestScore_reads_padded_number_witness :
  highestScore
    (loadHighestScore
       (mkStore 0 (Some ("  " ++ showDec 250 ++ " points")%string) true false))
  = 250.
Proof.
  apply (loadHighestScore_reads_padded_number 250 "  " " points"); try reflexivity.
  unfold LLONG_MIN, LLONG_MAX. lia.
Defined.

(** ** Reading keys: nothing is lost, split sequences are put together *)

Lemma length_append (a b : string) :
  String.length (a ++ b) = (String.length a + String.length b)%nat.
Proof. induction a as [|c a IH]; simpl; [reflexivity | now rewrite IH]. Qed.

Lemma length_zero (a : string) : String.length a = 0%nat -> a = ""%string.
Proof. destruct a; [reflexivity | discriminate]. Qed.

Lemma concat_cons (a : string) (l : list string) :
  String.concat "" (a :: l) = (a ++ String.concat "" l)%string.
Proof. destruct l; simpl; [now rewrite append_empty_r | reflexivity]. Qed.

Lemma readBytes_split (n : nat) :
  forall q buf left,
    readBytes n q = (buf, left) ->
    (buf ++ left)%string = q /\ (String.length buf <= n)%nat.
Proof.
  induction n as [|m IH]; intros q buf left E.
  - injection E as <- <-. split; [reflexivity | simpl; lia].
  - destruct q as [|c q]; cbn [readBytes] in E.
    + injection E as <- <-. split; [reflexivity | simpl; lia].
    + destruct (readBytes m q) as [got rest'] eqn:R.
      injection E as <- <-. destruct (IH q got rest' R) as [H1 H2].
      split; [simpl; now rewrite H1 | simpl; lia].
Qed.

Lemma readBytes_all (q : string) : readBytes (String.length q) q = (q, ""%string).
Proof.
  induction q as [|c q IH]; [reflexivity|].
  cbn [String.length readBytes]. now rewrite IH.
Qed.

(** The wait loop hands over the bytes in the order they came: what it
    returns, followed by what it leaves in the queue, is what it started
    with followed by the arrivals of the sleeps it made. *)
Lemma escapeWait_keeps_bytes (fuel : nat) :
  forall (waited : Z) (res : string) (t : Tty) (n : nat) (r : Input),
    escapeWait fuel waited res t n = Some r ->
    exists k,
      (n + k <= rounds r)%nat
      /\ (keys r ++ pending (device r))%string
         = (res ++ pending t ++ arrived k t)%string
      /\ arrivals (device r) = skipn k (arrivals t)
      /\ (String.length (keys r) <= String.length res + 9)%nat
      /\ (String.length res <= String.length (keys r))%nat.
Proof.
  induction fuel as [|f IH]; intros waited res t n r E; [discriminate|].
  cbn [escapeWait] in E. destruct (waited <? maxWaitMs).
  - destruct (0 <? String.length (pending t))%nat eqn:Av.
    + destruct (readBytes _ _) as [buf queue] eqn:R.
      injection E as <-. cbn [keys device rounds pending arrivals].
      destruct (readBytes_split _ _ _ _ R) as [Hs Hl].
      exists 0%nat. unfold arrived. cbn [firstn String.concat skipn].
      rewrite append_empty_r, append_assoc, Hs, !length_append.
      split; [lia|]. split; [reflexivity|]. split; [reflexivity|].
      assert (Hm := Nat.le_min_r (String.length (pending t)) 9). lia.
    + apply Nat.ltb_ge in Av.
      assert (Hp : pending t = ""%string) by (apply length_zero; lia).
      destruct (IH _ _ _ _ _ E) as (k & Hk & Hb & Ha & Hl1 & Hl2).
      unfold sleep8, arrived in *. destruct (arrivals t) as [|a rest] eqn:Ar.
      * exists k. rewrite Ar in *.
        split; [lia|]. split; [exact Hb|]. split; [exact Ha|]. lia.
      * exists (S k). cbn [pending arrivals] in *.
        cbn [firstn skipn]. rewrite concat_cons, Hp.
        rewrite Hp in Hb. cbn [append] in *.
        split; [lia|]. split; [exact Hb|]. split; [exact Ha|]. lia.
  - injection E as <-. cbn [keys device rounds].
    exists 0%nat. unfold arrived. cbn [firstn String.concat skipn].
    rewrite append_empty_r.
    split; [lia|]. split; [reflexivity|]. split; [reflexivity|]. lia.
Qed.

(** X12. [getInputSequence] neither loses nor reorders input: the sequence
    it returns followed by what it leaves in the queue is the queue it
    found followed by the bytes of the at most 13 sleeps it made.  It
    returns at most 10 bytes, and returns nothing only when the queue was
    empty. *)
Theorem getInputSequence_keeps_every_byte (t : Tty) (r : Input) :
  getInputSequence t = Some r ->
  exists k,
    (k <= 13)%nat
    /\ (keys r ++ pending (device r))%string = (pending t ++ arrived k t)%string
    /\ arrivals (device r) = skipn k (arrivals t)
    /\ (String.length (keys r) <= 10)%nat
    /\ (keys r = ""%string <-> pending t = ""%string).
Proof.
  unfold getInputSequence, getInputSequence_fuel.
  destruct (pending t) as [|c rest] eqn:Hp.
  - intros E. injection E as <-. exists 0%nat. cbn [keys device rounds].
    unfold arrived. cbn [firstn String.concat skipn].
    rewrite Hp. repeat split; simpl; lia.
  - destruct (c =? ESC)%char.
    + intros E.
      destruct (escapeWait_terminates 14 0 (str1 c) (mkTty rest (arrivals t)) 0)
        as (r' & E' & _ & Hlt & _); [lia | unfold maxWaitMs; lia |].
      rewrite E in E'. injection E' as <-.
      destruct (escapeWait_keeps_bytes _ _ _ _ _ _ E)
        as (k & Hk & Hb & Ha & Hl1 & Hl2).
      exists k. unfold arrived in *. cbn [pending arrivals str1 append] in *.
      unfold maxWaitMs in Hlt.
      split; [lia|]. split; [exact Hb|]. split; [exact Ha|].
      split; [simpl in Hl1; lia|].
      split; [|discriminate].
      intros K. rewrite K in Hl2. simpl in Hl2. lia.
    + intros E. injection E as <-. exists 0%nat. cbn [keys device rounds].
      unfold arrived. cbn [firstn String.concat skipn pending arrivals str1 append].
      rewrite append_empty_r.
      repeat split; simpl; try lia; discriminate.
Qed.

Lemma getInputSequence_keeps_every_byte_witness :
  exists k,
    (k <= 13)%nat
    /\ (String ESC "[C" ++ "")%string
       = (str1 ESC ++ arrived k (mkTty (str1 ESC) [""%string; "[C"%string]))%string.
Proof.
  destruct (getInputSequence_keeps_every_byte
              (mkTty (str1 ESC) [""%string; "[C"%string])
              (mkInput (String ESC "[C") (mkTty "" []) 3) eq_refl)
    as (k & Hk & Hb & _).
  exists k. split; [exact Hk | exact Hb].
Defined.

Lemma escapeWait_idle_step (fuel : nat) (waited : Z) (res : string)
    (t : Tty) (n : nat) :
  pending t = ""%string -> waited < maxWaitMs ->
  escapeWait (S fuel) waited res t n
  = escapeWait fuel (waited + 8) res (sleep8 t) (S n).
Proof.
  intros Hp Hw. cbn [escapeWait]. unfold maxWaitMs in *.
  destruct (Z.ltb_spec waited 100); [|lia].
  rewrite Hp. reflexivity.
Qed.

Lemma escapeWait_reads (fuel : nat) (waited : Z) (res body : string)
    (later : list string) (n : nat) :
  body <> ""%string -> (String.length body <= 9)%nat -> waited < maxWaitMs ->
  escapeWait (S fuel) waited res (mkTty body later) n
  = Some (mkInput (res ++ body) (mkTty "" later) (S n)).
Proof.
  intros Hne Hlen Hw. cbn [escapeWait pending arrivals]. unfold maxWaitMs in *.
  destruct (Z.ltb_spec waited 100); [|lia].
  destruct body as [|c body]; [contradiction|].
  replace (Nat.min (String.length (String c body)) 9)
    with (String.length (String c body)) by lia.
  rewrite readBytes_all. reflexivity.
Qed.

Lemma escapeWait_late_bytes (k : nat) :
  forall (fuel : nat) (waited : Z) (res body : string) (later : list string)
         (n : nat),
    body <> ""%string -> (String.length body <= 9)%nat ->
    waited + 8 * Z.of_nat (S k) < maxWaitMs ->
    (S (S k) <= fuel)%nat ->
    escapeWait fuel waited res (mkTty "" (repeat ""%string k ++ body :: later)) n
    = Some (mkInput (res ++ body) (mkTty "" later) (n + S (S k))).
Proof.
  induction k as [|k IH]; intros fuel waited res body later n Hne Hlen Hw Hf;
    (destruct fuel as [|fuel]; [lia|]);
    (rewrite escapeWait_idle_step; [|reflexivity | lia]).
  - cbn [repeat app sleep8 arrivals pending append].
    destruct fuel as [|fuel]; [lia|].
    rewrite escapeWait_reads by (auto; lia).
    do 2 f_equal. lia.
  - cbn [repeat app sleep8 arrivals pending append].
    rewrite IH by (auto; lia). do 2 f_equal. lia.
Qed.

(** X13. An escape sequence is put together again.  When the bytes after
    the escape byte (at most 9) are already in the queue, the call returns
    the whole sequence at once; when they arrive during one of the first 12
    sleeps of the wait, the call returns the whole sequence too, having
    waited until then; the queue is left empty.  Bytes that arrive during
    the 13th sleep come too late: the escape byte is returned alone and they
    stay in the queue for the next call. *)
Theorem escape_sequence_is_assembled (body : string) (later : list string) :
  body <> ""%string ->
  (String.length body <= 9)%nat ->
  getInputSequence (mkTty (String ESC body) later)
  = Some (mkInput (String ESC body) (mkTty "" later) 1)
  /\ (forall k, (k <= 11)%nat ->
        getInputSequence (mkTty (str1 ESC) (repeat ""%string k ++ body :: later))
        = Some (mkInput (String ESC body) (mkTty "" later) (k + 2)))
  /\ getInputSequence (mkTty (str1 ESC) (repeat ""%string 12 ++ body :: later))
     = Some (mkInput (str1 ESC) (mkTty body later) 13).
Proof.
  intros Hne Hlen. unfold getInputSequence, getInputSequence_fuel.
  cbn [pending arrivals str1]. rewrite Ascii.eqb_refl.
  split; [|split].
  - rewrite escapeWait_reads by (auto; unfold maxWaitMs; lia). reflexivity.
  - intros k Hk.
    rewrite escapeWait_late_bytes by (auto; unfold maxWaitMs; lia).
    do 2 f_equal. lia.
  - do 13 (rewrite escapeWait_idle_step;
           [cbn [repeat app sleep8 arrivals pending append]
           | reflexivity | unfold maxWaitMs; lia]).
    reflexivity.
Qed.

Lemma escape_sequence_is_assembled_witness :
  getInputSequence
    (mkTty (str1 ESC) (repeat ""%string 3 ++ "[D"%string :: []))
  = Some (mkInput (arrow "D") (mkTty "" []) 5)
  /\ keyToDisplay (arrow "D") = "LEFT_ARROW"%string.
Proof.
  assert (Hne : "[D"%string <> ""%string) by discriminate.
  assert (Hlen : (String.length "[D" <= 9)%nat) by (simpl; lia).
  destruct (escape_sequence_is_assembled "[D" [] Hne Hlen) as (_ & Hlate & _).
  split; [|reflexivity].
  apply (Hlate 3%nat). lia.
Defined.

(** ** Key labels *)

(** X14. [keyToDisplay] always gives a label: the result is never empty,
    it is "NONE" only for the empty sequence, and a printable character
    other than the space is its own label. *)
Theorem keyToDisplay_labels (k : string) :
  keyToDisplay k <> ""%string
  /\ (keyToDisplay k = "NONE"%string <-> k = ""%string)
  /\ (forall c, isprint c = true -> c <> " "%char ->
                keyToDisplay (str1 c) = str1 c).
Proof.
  assert (A : keyToDisplay k <> ""%string
              /\ (keyToDisplay k = "NONE"%string -> k = ""%string)).
  { unfold keyToDisplay.
    destruct (k =? "")%string eqn:E0; [apply String.eqb_eq in E0; now split|].
    repeat match goal with
           | |- context [if ?b then _ else _] =>
               destruct b; [split; discriminate|]
           end.
    destruct k as [|c [|c' k']]; repeat match goal with
           | |- context [if ?b then _ else _] => destruct b
           end; split; discriminate. }
  destruct A as [A1 A2]. split; [exact A1|]. split.
  - split; [exact A2 | intros ->; reflexivity].
  - intros c Hp Hs.
    destruct c as [b0 b1 b2 b3 b4 b5 b6 b7].
    destruct b0, b1, b2, b3, b4, b5, b6, b7;
      first [ discriminate Hp | now contradiction Hs | reflexivity ].
Qed.

Lemma keyToDisplay_labels_witness :
  keyToDisplay (str1 "k") = str1 "k".
Proof.
  destruct (keyToDisplay_labels "") as (_ & _ & Hprint).
  apply (Hprint "k"%char); [reflexivity | discriminate].
Defined.

(** ** Moving back and forth *)

(** X19. With two different bindings, a left move followed by a right move
    brings the player back to the column it started from unless it started
    against the left border, and a right move followed by a left move does
    unless it started against the right border; against a border the pair
    of moves shifts the player one column into the track. *)
Theorem moves_undo_each_other (cfg : Config) (s : State) :
  moveLeftKey cfg <> ""%string -> moveRightKey cfg <> ""%string ->
  moveLeftKey cfg <> moveRightKey cfg ->
  inTrack (playerX s) ->
  let left := handleInput cfg (moveLeftKey cfg) in
  let right := handleInput cfg (moveRightKey cfg) in
  (playerX s <> 2 -> right (left s) = s)
  /\ (playerX s = 2 -> playerX (right (left s)) = 3)
  /\ (playerX s <> TRACK_WIDTH + 1 -> left (right s) = s)
  /\ (playerX s = TRACK_WIDTH + 1 -> playerX (left (right s)) = TRACK_WIDTH).
Proof.
  intros Hl Hr Hd Hin. unfold inTrack, TRACK_WIDTH in *.
  assert (L : forall u, handleInput cfg (moveLeftKey cfg) u
                        = if playerX u >? 2 then set_playerX (playerX u - 1) u
                          else u).
  { intros u. unfold handleInput.
    rewrite (string_eqb_false _ _ Hl), String.eqb_refl. reflexivity. }
  assert (R : forall u, handleInput cfg (moveRightKey cfg) u
                        = if playerX u <? 21 then set_playerX (playerX u + 1) u
                          else u).
  { intros u. unfold handleInput.
    rewrite (string_eqb_false _ _ Hr).
    rewrite (string_eqb_false (moveRightKey cfg) (moveLeftKey cfg))
      by congruence.
    rewrite String.eqb_refl. reflexivity. }
  cbv zeta. rewrite !L, !R. destruct s as [obs px sc over calls].
  cbn [playerX] in *.
  repeat split; intros Hp.
  - destruct (Z.gtb_spec px 2); [|lia]. unfold set_playerX. cbn [playerX].
    destruct (Z.ltb_spec (px - 1) 21); [|lia].
    cbn [obstacles playerX score gameOver randCalls]. f_equal. lia.
  - subst px. reflexivity.
  - destruct (Z.ltb_spec px 21); [|lia]. unfold set_playerX.
    cbn [playerX].
    destruct (Z.gtb_spec (px + 1) 2); [|lia].
    cbn [obstacles playerX score gameOver randCalls]. f_equal. lia.
  - subst px. reflexivity.
Qed.

Lemma moves_undo_each_other_witness :
  handleInput defaultConfig "d" (handleInput defaultConfig "a" (freshSession 0))
  = freshSession 0.
Proof.
  assert (Hin : inTrack (playerX (freshSession 0))).
  { split; discriminate. }
  destruct (moves_undo_each_other defaultConfig (freshSession 0)) as (H & _);
    try discriminate; [exact Hin|].
  apply H. discriminate.
Defined.

(** ** The frame *)

Lemma get_string_of_list (l : list ascii) (tail : string) :
  forall n, (n < List.length l)%nat ->
            String.get n (string_of_list_ascii l ++ tail) = nth_error l n.
Proof.
  induction l as [|c l IH]; intros n Hn; [simpl in Hn; lia|].
  destruct n as [|n]; [reflexivity|].
  cbn [string_of_list_ascii append String.get nth_error].
  apply IH. simpl in Hn. lia.
Qed.

Lemma get_past_string_of_list (l : list ascii) (tail : string) :
  String.get (List.length l) (string_of_list_ascii l ++ tail)
  = String.get 0 tail.
Proof. induction l as [|c l IH]; [reflexivity | exact IH]. Qed.

Lemma length_string_of_list (l : list ascii) :
  String.length (string_of_list_ascii l) = List.length l.
Proof. induction l as [|c l IH]; simpl; [reflexivity | now rewrite IH]. Qed.

Lemma nth_error_range (lo : Z) (n i : nat) :
  (i < n)%nat -> nth_error (range lo n) i = Some (lo + Z.of_nat i).
Proof.
  intros Hi. unfold range. rewrite nth_error_map, nth_error_seq.
  destruct (Nat.ltb_spec i n); [reflexivity | lia].
Qed.

Lemma length_range (lo : Z) (n : nat) : List.length (range lo n) = n.
Proof. unfold range. now rewrite length_map, length_seq. Qed.

Lemma obstacle_at (v : list Car) (row col : Z) :
  existsb (fun obs => (y obs =? row) && (x obs =? col)) v = true
  <-> exists obs, In obs v /\ y obs = row /\ x obs = col.
Proof.
  rewrite existsb_exists. split; intros (o & Hin & Ho); exists o;
    (split; [exact Hin|]).
  - apply andb_true_iff in Ho. now rewrite !Z.eqb_eq in Ho.
  - apply andb_true_iff. now rewrite !Z.eqb_eq.
Qed.

(** The character [draw] writes for column [col] of a row. *)
Lemma drawRow_char (s : State) (row col : Z) :
  1 <= col <= TRACK_WIDTH + 2 ->
  String.get (Z.to_nat (col - 1)) (drawRow s row) = Some (cell s row col).
Proof.
  intros Hc. unfold drawRow, TRACK_WIDTH in *.
  rewrite get_string_of_list by (rewrite length_map, length_range; lia).
  rewrite nth_error_map, nth_error_range by lia.
  cbn [option_map]. do 2 f_equal. lia.
Qed.

(** X15. Every row of the frame is [TRACK_WIDTH + 2] cells and a newline;
    the border character stands in the first and the last cell and in no
    other. *)
Theorem drawRow_layout (s : State) (row : Z) :
  String.length (drawRow s row) = 23%nat
  /\ String.get 22 (drawRow s row) = Some (ascii_of_nat 10)
  /\ (forall col, 1 <= col <= TRACK_WIDTH + 2 ->
        (String.get (Z.to_nat (col - 1)) (drawRow s row) = Some BORDER_CHAR
         <-> col = 1 \/ col = TRACK_WIDTH + 2)).
Proof.
  split; [|split].
  - unfold drawRow. rewrite length_append, length_string_of_list,
      length_map, length_range. reflexivity.
  - unfold drawRow.
    pose proof (get_past_string_of_list
                  (map (cell s row) (range 1 (Z.to_nat (TRACK_WIDTH + 2))))
                  (str1 (ascii_of_nat 10))) as G.
    rewrite length_map, length_range in G. exact G.
  - intros col Hc. rewrite drawRow_char by exact Hc.
    unfold cell, TRACK_WIDTH.
    destruct (Z.eqb_spec col 1) as [E1 | E1]; cbn [orb].
    + split; [now left | reflexivity].
    + destruct (Z.eqb_spec col (20 + 2)) as [E2 | E2].
      * split; [now right | reflexivity].
      * split; [|intros [H | H]; contradiction].
        case_ifs; discriminate.
Qed.

Lemma drawRow_layout_witness :
  String.get (Z.to_nat (22 - 1)) (drawRow (freshSession 0) 7) = Some BORDER_CHAR.
Proof.
  apply (drawRow_layout (freshSession 0) 7).
  - unfold TRACK_WIDTH. lia.
  - right. reflexivity.
Defined.

(** X16. Inside the borders, the player's character stands exactly in the
    cell of the bottom row at the player's column, and the obstacle
    character stands exactly in the cells that hold an obstacle, but for the
    player's cell: an obstacle on the player's cell is hidden by the
    player. *)
Theorem drawRow_shows_player_and_obstacles (s : State) (row col : Z) :
  1 <= col <= TRACK_WIDTH + 2 ->
  (String.get (Z.to_nat (col - 1)) (drawRow s row) = Some PLAYER_CHAR
   <-> row = SCREEN_HEIGHT /\ col = playerX s /\ 2 <= col <= TRACK_WIDTH + 1)
  /\ (String.get (Z.to_nat (col - 1)) (drawRow s row) = Some OBSTACLE_CHAR
      <-> 2 <= col <= TRACK_WIDTH + 1
          /\ ~ (row = SCREEN_HEIGHT /\ col = playerX s)
          /\ exists obs, In obs (obstacles s) /\ y obs = row /\ x obs = col).
Proof.
  intros Hc. rewrite drawRow_char by exact Hc.
  pose proof (obstacle_at (obstacles s) row col) as Hobs.
  unfold cell, TRACK_WIDTH in *.
  destruct (Z.eqb_spec col 1) as [E1 | E1]; cbn [orb].
  { split; (split; [discriminate | intros H; lia]). }
  destruct (Z.eqb_spec col (20 + 2)) as [E2 | E2].
  { split; (split; [discriminate | intros H; lia]). }
  destruct (Z.eqb_spec row SCREEN_HEIGHT) as [Er | Er];
    destruct (Z.eqb_spec col (playerX s)) as [Ep | Ep]; cbn [andb].
  { split; [split; [intros _; lia | reflexivity]|].
    split; [discriminate | intros (_ & H & _); now contradiction H]. }
  all: destruct (existsb _ (obstacles s));
    (split; [split; [discriminate | intros H; lia]|]);
    (split; [intros H | intros (_ & _ & H)]);
    [ split; [lia|]; split; [tauto | now apply Hobs]
    | reflexivity
    | discriminate
    | apply Hobs in H; discriminate ].
Qed.

Lemma drawRow_shows_player_and_obstacles_witness :
  String.get (Z.to_nat (11 - 1))
    (drawRow (mkState [mkCar 11 20] 11 0 false 0) 20)
  = Some PLAYER_CHAR.
Proof.
  apply (drawRow_shows_player_and_obstacles
           (mkState [mkCar 11 20] 11 0 false 0) 20 11).
  - unfold TRACK_WIDTH. lia.
  - unfold TRACK_WIDTH. simpl. repeat split; lia.
Defined.

(** ** Difficulty and the tick interval *)

(** X17. The tick interval is never below 20 ms.  For a level from 1 to 5
    it is [120 - 20 * level], so between 20 and 100 ms, where the floor
    is not needed; a higher level never gives a longer interval. *)
Theorem msDuration_range (cfg : Config) :
  20 <= msDuration cfg
  /\ (1 <= difficultyLevel cfg <= 5 ->
        msDuration cfg = 120 - 20 * difficultyLevel cfg
        /\ msDuration cfg <= 100)
  /\ (5 <= difficultyLevel cfg -> msDuration cfg = 20)
  /\ (forall cfg', difficultyLevel cfg <= difficultyLevel cfg' ->
                   msDuration cfg' <= msDuration cfg).
Proof.
  unfold msDuration.
  destruct (Z.ltb_spec (120 - difficultyLevel cfg * 20) 20).
  - repeat split; try lia. intros cfg' H'.
    destruct (Z.ltb_spec (120 - difficultyLevel cfg' * 20) 20); lia.
  - repeat split; try lia. intros cfg' H'.
    destruct (Z.ltb_spec (120 - difficultyLevel cfg' * 20) 20); lia.
Qed.

Lemma msDuration_range_witness :
  msDuration (mkConfig "a" "d" 3) = 120 - 20 * 3
  /\ msDuration (mkConfig "a" "d" 3) <= 100.
Proof.
  apply (msDuration_range (mkConfig "a" "d" 3)). simpl. lia.
Defined.

(** X18. [showLevelSelect] keeps the level between 1 and 5 and never
    touches the key bindings.  The level changes only to a number from 1 to
    5 read from the input; a line holding one such digit sets the level to
    it and is consumed together with the character that follows it.  So the
    interval of the next game is between 20 and 100 ms. *)
Theorem showLevelSelect_keeps_level_valid (cfg : Config) (cin : string) :
  let cfg' := fst (showLevelSelect cfg cin) in
  moveLeftKey cfg' = moveLeftKey cfg
  /\ moveRightKey cfg' = moveRightKey cfg
  /\ (difficultyLevel cfg' <> difficultyLevel cfg ->
        fst (extractInt cin) = Some (difficultyLevel cfg')
        /\ 1 <= difficultyLevel cfg' <= 5)
  /\ (1 <= difficultyLevel cfg <= 5 ->
        1 <= difficultyLevel cfg' <= 5 /\ 20 <= msDuration cfg' <= 100)
  /\ (forall n rest,
        1 <= n <= 5 ->
        cin = String (digitChar n) (String (ascii_of_nat 10) rest) ->
        showLevelSelect cfg cin
        = (mkConfig (moveLeftKey cfg) (moveRightKey cfg) n, get1 rest)).
Proof.
  cbv zeta.
  assert (Hlevel :
    difficultyLevel (fst (showLevelSelect cfg cin)) = difficultyLevel cfg
    \/ (fst (extractInt cin) = Some (difficultyLevel (fst (showLevelSelect cfg cin)))
        /\ 1 <= difficultyLevel (fst (showLevelSelect cfg cin)) <= 5)).
  { unfold showLevelSelect. destruct (extractInt cin) as [[v|] cin1];
      cbn [fst difficultyLevel].
    - destruct (Z.geb_spec v 1); destruct (Z.leb_spec v 5); cbn [andb];
        [right; split; [reflexivity | lia] | now left ..].
    - left. now destruct ((_ >=? 1) && _). }
  split; [|split; [|split; [|split]]].
  - unfold showLevelSelect. now destruct (extractInt cin).
  - unfold showLevelSelect. now destruct (extractInt cin).
  - intros Hd. destruct Hlevel as [H | H]; [contradiction | exact H].
  - intros Hv.
    assert (Hin : 1 <= difficultyLevel (fst (showLevelSelect cfg cin)) <= 5)
      by (destruct Hlevel as [-> | [_ H]]; assumption).
    split; [exact Hin|]. unfold msDuration.
    destruct (Z.ltb_spec
      (120 - difficultyLevel (fst (showLevelSelect cfg cin)) * 20) 20); lia.
  - intros n rest Hn ->.
    assert (C : n = 1 \/ n = 2 \/ n = 3 \/ n = 4 \/ n = 5) by lia.
    destruct C as [-> | [-> | [-> | [-> | ->]]]]; reflexivity.
Qed.

Lemma showLevelSelect_keeps_level_valid_witness :
  showLevelSelect (mkConfig "a" "d" 1)
    (String "4" (String (ascii_of_nat 10) "x"))
  = (mkConfig "a" "d" 4, ""%string).
Proof.
  destruct (showLevelSelect_keeps_level_valid (mkConfig "a" "d" 1)
              (String "4" (String (ascii_of_nat 10) "x")))
    as (_ & _ & _ & _ & Hline).
  apply (Hline 4 "x"%string); [lia | reflexivity].
Defined.
